(** * Overfitting script and live visualizer: model and properties

    Two source files are covered.

    - [utils/visualization_vispy.py]: class [Visualizer], a
      [multiprocessing.Process] whose parent side ([update], [stop]) and
      worker side ([run], [build_gui], [dispatch], [on_timer]) talk through
      a [Queue(1)] and a [Barrier(2)].  The queue is modelled as
      [multiprocessing/queues.py] implements it: a semaphore, a pipe, and
      in each process a buffer with a feeder thread.
    - [experiments/overfit.py]: the training loop of [main].

    Tensor entries and metric values are floating-point numbers in the
    program; here they are rationals, and the one place where the program
    compares a transcendental function of an entry with a constant
    ([torch.sigmoid(p) > 0.7]) is a parameter [thr] of the model. *)

From Stdlib Require Import QArith.
From stdpp Require Import gmap strings list fin_maps.

(** ** The two processes *)

Inductive party := Parent | Child.

(** ** [multiprocessing.Queue] *)

Module Queue.

(** [Queue(maxsize)] as [multiprocessing/queues.py] builds it.  The
    processes share the bounded semaphore [_sem], which has [maxsize] slots,
    and the pipe.  Every process has its own [_buffer]: [put] appends to it,
    and the feeder thread of the process sends its items through the pipe,
    oldest first. *)
Record t (A : Type) := Make {
  maxsize : nat;
  acquired : nat;          (* the slots of [_sem] that are taken *)
  parent_buffer : list A;  (* [_buffer] in the parent *)
  child_buffer : list A;   (* [_buffer] in the worker *)
  pipe : list A            (* sent and not yet received *)
}.
Arguments Make {A} _ _ _ _ _.
Arguments maxsize {A} _.
Arguments acquired {A} _.
Arguments parent_buffer {A} _.
Arguments child_buffer {A} _.
Arguments pipe {A} _.

Definition create {A} (n : nat) : t A := Make n 0 [] [] [].

Definition buffer {A} (p : party) (q : t A) : list A :=
  match p with Parent => parent_buffer q | Child => child_buffer q end.

Definition with_buffer {A} (p : party) (b : list A) (q : t A) : t A :=
  match p with
  | Parent => Make (maxsize q) (acquired q) b (child_buffer q) (pipe q)
  | Child => Make (maxsize q) (acquired q) (parent_buffer q) b (pipe q)
  end.

(** [empty()] is [not self._poll()]: it looks at the pipe, and an item that
    is still in a buffer does not count. *)
Definition empty {A} (q : t A) : bool :=
  match pipe q with [] => true | _ :: _ => false end.

(** [full()]: [_sem] has no free slot. *)
Definition full {A} (q : t A) : bool :=
  (maxsize q <=? acquired q)%nat.

(** [put] in process [p]: [_sem.acquire], then [_buffer.append].  [None] is
    the case in which [_sem] has no free slot: [put(x)] waits there,
    [put(x, block=False)] raises [queue.Full]. *)
Definition try_put {A} (p : party) (q : t A) (x : A) : option (t A) :=
  if full q then None
  else Some (with_buffer p (buffer p q ++ [x])
               (Make (maxsize q) (S (acquired q)) (parent_buffer q)
                     (child_buffer q) (pipe q))).

(** One round of [_feed] in process [p]: [_buffer.popleft()] and
    [send_bytes], taken as one step.  [None] when the buffer is empty and
    the thread waits. *)
Definition feed {A} (p : party) (q : t A) : option (t A) :=
  match buffer p q with
  | [] => None
  | x :: rest =>
      Some (with_buffer p rest
              (Make (maxsize q) (acquired q) (parent_buffer q)
                    (child_buffer q) (pipe q ++ [x])))
  end.

(** [get()]: [_recv_bytes()], then [_sem.release()], taken as one step;
    [None] when the pipe is empty and [get()] waits.  The slot released is
    the one the item's [put] acquired (lemma [queue_ok_reachable] below), so
    the bounded semaphore is never released too often. *)
Definition try_get {A} (q : t A) : option (A * t A) :=
  match pipe q with
  | [] => None
  | x :: rest =>
      Some (x, Make (maxsize q) (pred (acquired q)) (parent_buffer q)
                    (child_buffer q) rest)
  end.

(** Everything that has been put and not yet got: what is in the pipe and
    what is still in the two buffers. *)
Definition items {A} (q : t A) : list A :=
  pipe q ++ parent_buffer q ++ child_buffer q.

End Queue.

(** ** Data carried by the queue *)

Definition point : Type := Q * Q * Q.
Definition color : Type := Z * Z * Z.

(** The dictionary handed to [update]: keys ['points'], ['predictions'] and
    ['labels'], read by [on_timer]. *)
Record snapshot := Snapshot {
  points : list point;
  predictions : list Q;
  labels : list bool
}.

(** The three tensors index each other; torch raises on other shapes. *)
Definition wf_snapshot (d : snapshot) : Prop :=
  length (predictions d) = length (points d) /\
  length (labels d) = length (points d).

(** [copy.deepcopy] on a value: the copy is equal to the original.  What it
    does to object identity is the subject of module [Aliasing] below. *)
Definition deepcopy (d : snapshot) : snapshot := d.

(** ** Tensor helpers used by [on_timer] *)

(** [xs[mask]] with a boolean mask. *)
Fixpoint mask_select {A} (xs : list A) (mask : list bool) : list A :=
  match xs, mask with
  | x :: xs', b :: mask' =>
      if b then x :: mask_select xs' mask' else mask_select xs' mask'
  | _, _ => []
  end.

(** Elementwise [a & b]. *)
Fixpoint mask_and (a b : list bool) : list bool :=
  match a, b with
  | x :: a', y :: b' => (x && y) :: mask_and a' b'
  | _, _ => []
  end.

(** Elementwise [~a]. *)
Definition mask_not (a : list bool) : list bool := map negb a.

Definition green : color := (0, 1, 0)%Z.
Definition red : color := (1, 0, 0)%Z.
Definition blue : color := (0, 0, 1)%Z.
Definition yellow : color := (1, 1, 0)%Z.

(** [pc * np.array([1, -1, 1])]. *)
Definition flip_y (p : point) : point :=
  match p with (x, y, z) => (x * 1, y * (-1 # 1), z * 1)%Q end.

(** ** The worker's copy of the object *)

Record worker := Worker {
  color_f : bool;
  gt_f : bool;
  ref_f : bool;
  last_data : option snapshot;
  (** arguments of the last [scatter.set_data], if any *)
  scatter : option (list point * list color);
  (** number of [scatter.set_data] calls so far *)
  redraws : nat;
  cube_width : Z;
  ref_width : Z
}.

Definition set_color_f (b : bool) (w : worker) : worker :=
  Worker b (gt_f w) (ref_f w) (last_data w) (scatter w) (redraws w)
         (cube_width w) (ref_width w).
Definition set_gt_f (b : bool) (w : worker) : worker :=
  Worker (color_f w) b (ref_f w) (last_data w) (scatter w) (redraws w)
         (cube_width w) (ref_width w).
Definition set_ref_f (b : bool) (w : worker) : worker :=
  Worker (color_f w) (gt_f w) b (last_data w) (scatter w) (redraws w)
         (cube_width w) (ref_width w).
Definition set_last_data (d : snapshot) (w : worker) : worker :=
  Worker (color_f w) (gt_f w) (ref_f w) (Some d) (scatter w) (redraws w)
         (cube_width w) (ref_width w).
Definition scatter_set_data (pc : list point) (cols : list color) (w : worker)
  : worker :=
  Worker (color_f w) (gt_f w) (ref_f w) (last_data w) (Some (pc, cols))
         (S (redraws w)) (cube_width w) (ref_width w).
Definition set_widths (n : Z) (w : worker) : worker :=
  Worker (color_f w) (gt_f w) (ref_f w) (last_data w) (scatter w) (redraws w)
         n n.

(** The object as [__init__] leaves it and [build_gui] completes it: the
    three flags are [True], nothing has been received, the cube and the axes
    are created with [width=10]. *)
Definition worker_init : worker :=
  Worker true true true None None 0 10 10.

(** ** [on_timer] and [dispatch] *)

Section Rendering.

(** [thr p] stands for [torch.sigmoid(p) > 0.7]. *)
Variable thr : Q -> bool.

Definition positive_idxs (d : snapshot) : list bool :=
  map thr (predictions d).

Definition false_negative_idxs (d : snapshot) : list bool :=
  mask_and (labels d) (mask_not (positive_idxs d)).

Definition positive (d : snapshot) : list point :=
  mask_select (points d) (positive_idxs d).

Definition false_negative (d : snapshot) : list point :=
  mask_select (points d) (false_negative_idxs d).

(** The cloud [pc] of lines 103-107. *)
Definition cloud (w : worker) (d : snapshot) : list point :=
  if gt_f w then positive d ++ false_negative d else positive d.

(** The colours of lines 110-121. *)
Definition p_colors (w : worker) (d : snapshot) : list color :=
  if color_f w
  then map (fun l : bool => if l then green else red)
           (mask_select (labels d) (positive_idxs d))
  else repeat blue (length (positive d)).

Definition colors (w : worker) (d : snapshot) : list color :=
  if gt_f w
  then p_colors w d ++ repeat yellow (length (false_negative d))
  else p_colors w d.

(** Lines 95-124: everything after [self.last_data = data]. *)
Definition draw (d : snapshot) (w : worker) : worker :=
  match cloud w d with
  | [] => w
  | _ :: _ => scatter_set_data (map flip_y (cloud w d)) (colors w d) w
  end.

Definition on_timer (w : worker) (q : Queue.t snapshot)
  : worker * Queue.t snapshot :=
  if negb (Queue.empty q) then
    match Queue.try_get q with
    | Some (data, q') => (draw data (set_last_data data w), q')
    | None => (w, q)
    end
  else (w, q).

End Rendering.

(** Lines 83-87: the tail of [dispatch] for the keys [c] and [g]. *)
Definition resend (w : worker) (q : Queue.t snapshot)
  : worker * Queue.t snapshot :=
  match last_data w with
  | Some d =>
      match Queue.try_put Child q d with
      | Some q' => (w, q')
      | None => (w, q)
      end
  | None => (w, q)
  end.

Definition dispatch (text : string) (w : worker) (q : Queue.t snapshot)
  : worker * Queue.t snapshot :=
  if String.eqb text "c"%string then resend (set_color_f (negb (color_f w)) w) q
  else if String.eqb text "g"%string then resend (set_gt_f (negb (gt_f w)) w) q
  else if String.eqb text "r"%string then
    let w' := set_ref_f (negb (ref_f w)) w in
    (if ref_f w' then set_widths 10 w' else set_widths 0 w', q)
  else (w, q).

(** ** [multiprocessing.Barrier] *)

Module Barrier.

(** [count] parties are inside [wait()]; [draining] is set when the last
    of the [parties] has arrived and cleared when the last one has left. *)
Record t := Make { parties : nat; count : nat; draining : bool }.

Definition create (n : nat) : t := Make n 0 false.

(** Entering [wait()]; a party that finds the barrier draining waits
    outside ([None]). *)
Definition arrive (b : t) : option t :=
  if draining b then None
  else Some (Make (parties b) (S (count b)) (S (count b) =? parties b)%nat).

(** Returning from [wait()]; [None] while the barrier has not tripped. *)
Definition leave (b : t) : option t :=
  if draining b
  then Some (Make (parties b) (pred (count b))
                  (negb (pred (count b) =? 0)%nat))
  else None.

End Barrier.

(** ** The parent and the worker *)

(** Synchronisation events, in the order in which they happen. *)
Inductive event :=
| Started              (* [self.start()] *)
| GuiBuilt             (* [self.build_gui()] has returned *)
| Wait (p : party)     (* [p] has called [self.barrier.wait()] *)
| Pass (p : party).    (* [p] has returned from [self.barrier.wait()] *)

(** Where the parent is inside [update(data)]. *)
Inductive parent_pc :=
| PIdle                       (* not inside [update] *)
| PStart (data : snapshot)    (* line 131, before [self.start()] *)
| PWait (data : snapshot)     (* line 132, before [self.barrier.wait()] *)
| PBlocked (data : snapshot)  (* line 132, inside [self.barrier.wait()] *)
| PCheck (data : snapshot)    (* line 134, before [self.queue_in.empty()] *)
| PPut (data : snapshot).     (* line 135, before [self.queue_in.put(..)] *)

(** Where the worker is inside [run()]. *)
Inductive worker_pc :=
| WNone        (* the process does not exist yet *)
| WBuild       (* line 32, before [self.build_gui()] *)
| WWait        (* line 33, before [self.barrier.wait()] *)
| WBlocked     (* line 33, inside [self.barrier.wait()] *)
| WLoop.       (* line 34, inside [app.run()] *)

(** The parent and the worker are two processes.  Each has its own copy of
    the [Visualizer] attributes and of the module [vispy.app]; the queue and
    the barrier are the only objects they share, and of the queue each has
    its own buffer. *)
Record state := State {
  setup_f : bool;             (* the parent's [self.setup_f] *)
  ppc : parent_pc;
  parent_app_quit : bool;     (* [app.quit()] was called in the parent *)
  wpc : worker_pc;
  wobj : worker;              (* the worker's attributes *)
  barrier : Barrier.t;
  queue_in : Queue.t snapshot;
  log : list event
}.

(** [__init__]. *)
Definition init : state :=
  State false PIdle false WNone worker_init (Barrier.create 2)
        (Queue.create 1) [].

Definition with_parent (f : bool) (pc : parent_pc) (s : state) : state :=
  State f pc (parent_app_quit s) (wpc s) (wobj s) (barrier s) (queue_in s)
        (log s).
Definition with_quit (s : state) : state :=
  State (setup_f s) (ppc s) true (wpc s) (wobj s) (barrier s) (queue_in s)
        (log s).
Definition with_wpc (pc : worker_pc) (s : state) : state :=
  State (setup_f s) (ppc s) (parent_app_quit s) pc (wobj s) (barrier s)
        (queue_in s) (log s).
Definition with_worker (wq : worker * Queue.t snapshot) (s : state) : state :=
  State (setup_f s) (ppc s) (parent_app_quit s) (wpc s) (fst wq) (barrier s)
        (snd wq) (log s).
Definition with_barrier (b : Barrier.t) (s : state) : state :=
  State (setup_f s) (ppc s) (parent_app_quit s) (wpc s) (wobj s) b
        (queue_in s) (log s).
Definition with_queue (q : Queue.t snapshot) (s : state) : state :=
  State (setup_f s) (ppc s) (parent_app_quit s) (wpc s) (wobj s) (barrier s)
        q (log s).
Definition emit (e : event) (s : state) : state :=
  State (setup_f s) (ppc s) (parent_app_quit s) (wpc s) (wobj s) (barrier s)
        (queue_in s) (log s ++ [e]).

(** What can happen next. *)
Inductive action :=
| Update (data : snapshot)  (* the parent calls [update(data)] *)
| Stop                      (* the parent calls [stop()] *)
| PStep                     (* the parent runs the next line of [update] *)
| WStep                     (* the worker runs the next line of [run] *)
| Tick                      (* the timer fires in the worker's event loop *)
| Key (text : string)       (* a key press reaches the worker's event loop *)
| Feed (p : party).         (* the queue's feeder thread in [p] sends an item *)

(** Lines 129-130: the test of [setup_f] on entry. *)
Definition update_enter (data : snapshot) (s : state) : option state :=
  match ppc s with
  | PIdle =>
      if negb (setup_f s) then Some (with_parent true (PStart data) s)
      else Some (with_parent (setup_f s) (PCheck data) s)
  | _ => None
  end.

(** Lines 137-138.  [stop] runs in the process that calls it, and [app] is
    that process's [vispy.app]. *)
Definition stop (s : state) : option state :=
  match ppc s with
  | PIdle => Some (with_quit s)
  | _ => None
  end.

(** One line of [update]; [None] when the parent cannot go on. *)
Definition update_step (s : state) : option state :=
  match ppc s with
  | PIdle => None
  | PStart data =>
      match wpc s with
      | WNone =>
          Some (emit Started
                  (with_wpc WBuild (with_parent (setup_f s) (PWait data) s)))
      | _ => None
      end
  | PWait data =>
      match Barrier.arrive (barrier s) with
      | Some b =>
          Some (emit (Wait Parent)
                  (with_barrier b
                     (with_parent (setup_f s) (PBlocked data) s)))
      | None => None
      end
  | PBlocked data =>
      match Barrier.leave (barrier s) with
      | Some b =>
          Some (emit (Pass Parent)
                  (with_barrier b (with_parent (setup_f s) (PCheck data) s)))
      | None => None
      end
  | PCheck data =>
      if Queue.empty (queue_in s)
      then Some (with_parent (setup_f s) (PPut data) s)
      else Some (with_parent (setup_f s) PIdle s)
  | PPut data =>
      match Queue.try_put Parent (queue_in s) (deepcopy data) with
      | Some q => Some (with_queue q (with_parent (setup_f s) PIdle s))
      | None => None
      end
  end.

(** One line of [run]; [None] when the worker cannot go on. *)
Definition run_step (s : state) : option state :=
  match wpc s with
  | WBuild => Some (emit GuiBuilt (with_wpc WWait s))
  | WWait =>
      match Barrier.arrive (barrier s) with
      | Some b => Some (emit (Wait Child) (with_barrier b (with_wpc WBlocked s)))
      | None => None
      end
  | WBlocked =>
      match Barrier.leave (barrier s) with
      | Some b => Some (emit (Pass Child) (with_barrier b (with_wpc WLoop s)))
      | None => None
      end
  | WNone | WLoop => None
  end.

(** The feeder thread of the queue in process [p]; [None] when it has
    nothing to send. *)
Definition feed_step (p : party) (s : state) : option state :=
  match Queue.feed p (queue_in s) with
  | Some q => Some (with_queue q s)
  | None => None
  end.

Section System.

Variable thr : Q -> bool.

(** A callback of the worker's event loop. *)
Definition in_loop (f : worker -> Queue.t snapshot -> worker * Queue.t snapshot)
           (s : state) : option state :=
  match wpc s with
  | WLoop => Some (with_worker (f (wobj s) (queue_in s)) s)
  | _ => None
  end.

Definition step (a : action) (s : state) : option state :=
  match a with
  | Update data => update_enter data s
  | Stop => stop s
  | PStep => update_step s
  | WStep => run_step s
  | Tick => in_loop (on_timer thr) s
  | Key text => in_loop (dispatch text) s
  | Feed p => feed_step p s
  end.

(** A schedule, from left to right. *)
Fixpoint exec (tr : list action) (s : state) : option state :=
  match tr with
  | [] => Some s
  | a :: tr' =>
      match step a s with
      | Some s' => exec tr' s'
      | None => None
      end
  end.

(** [update(data)] with nothing else running in between, the feeder thread
    included: the lines of the body are run until the call returns. *)
Fixpoint update_return (fuel : nat) (s : state) : option state :=
  match ppc s with
  | PIdle => Some s
  | _ =>
      match fuel with
      | O => None
      | S fuel' =>
          match update_step s with
          | Some s' => update_return fuel' s'
          | None => None
          end
      end
  end.

End System.

Definition update (data : snapshot) (s : state) : option state :=
  match update_enter data s with
  | Some s' => update_return 5 s'
  | None => None
  end.

(** * The training loop of [experiments/overfit.py] *)

Module Overfit.

(** The value of [best]: [np.inf] or a metric value. *)
Inductive ext := Fin (q : Q) | Inf.

(** [best > c]. *)
Definition gt (best : ext) (c : Q) : bool :=
  match best with
  | Inf => true
  | Fin b => negb (Qle_bool b c)
  end.

Definition ext_le (a b : ext) : Prop :=
  match a, b with
  | _, Inf => True
  | Inf, Fin _ => False
  | Fin x, Fin y => (x <= y)%Q
  end.

(** What one iteration does that can be seen from outside. *)
Inductive event :=
| SamplePointCloud (i : nat)            (* line 68 *)
| ModelStep (i : nat)                   (* line 73 *)
| ReportScalar (title series : string) (value : Q) (i : nat)
| ReportPlotly (title series : string) (i : nat)
| Save (file : string)       (* [torch.save(.., ckpt_dir / file)] *)
| SetPostfix (loss : Q).                (* line 137 *)

(** The two variables that live across iterations; [chamfer_real] is
    unbound until line 82 has run once. *)
Record vars := Vars { best : ext; chamfer_real : option Q }.

(** The tests of lines 77 and 87. *)
Definition log_due (i : nat) : bool := ((i + 1) mod 1000 =? 0)%nat.
Definition checkpoint_due (i : nat) : bool := ((i + 1) mod 5000 =? 0)%nat.
Arguments log_due : simpl never.
Arguments checkpoint_due : simpl never.

Definition is_log (e : event) : bool :=
  match e with
  | ReportScalar _ _ _ _ | ReportPlotly _ _ _ => true
  | _ => false
  end.

Definition is_checkpoint (e : event) : bool :=
  match e with Save _ => true | _ => false end.

Section Loop.

(** What the model and the metric return at iteration [i]:
    [loss.item()], [metric(x[positive_idxs], x[labels])] and
    [metric(final_pc, gt)]. *)
Variables loss chamfer decoded : nat -> Q.

(** Lines 77-85. *)
Definition log_block (i : nat) (v : vars) : list event * vars :=
  if log_due i
  then ([ReportScalar "Loss" "loss" (loss i) i;
         ReportScalar "Chamfer" "chamfer" (chamfer i * 100) i],
        Vars (best v) (Some (chamfer i)))
  else ([], v).

(** Lines 88-130. *)
Definition figures (i : nat) : list event :=
  [ReportPlotly "Point Clouds" "precision_recall" i;
   ReportPlotly "Point Clouds" "reconstruction" i;
   ReportScalar "Chamfer" "real" (decoded i * 100) i;
   ReportPlotly "Point Clouds" "input points" i].

(** Lines 87-135; [None] is the [NameError] of line 133 when
    [chamfer_real] is unbound. *)
Definition checkpoint_block (i : nat) (v : vars)
  : option (list event * vars) :=
  if checkpoint_due i
  then
    match chamfer_real v with
    | None => None
    | Some c =>
        if gt (best v) c
        then Some (figures i ++ [Save "latest.pth"; Save "best.pth"],
                   Vars (Fin c) (chamfer_real v))
        else Some (figures i ++ [Save "latest.pth"], v)
    end
  else Some ([], v).

(** Lines 68-137. *)
Definition body (i : nat) (v : vars) : option (list event * vars) :=
  let '(ev1, v1) := log_block i v in
  match checkpoint_block i v1 with
  | Some (ev2, v2) =>
      Some ([SamplePointCloud i; ModelStep i] ++ ev1 ++ ev2 ++
            [SetPostfix (loss i)], v2)
  | None => None
  end.

(** Lines 63-64. *)
Definition vars_init : vars := Vars Inf None.

(** The iterations [0 .. n-1] of [for i in range], in order: the events
    of each iteration and the variables afterwards. *)
Fixpoint iterations (n : nat) : option (list (list event) * vars) :=
  match n with
  | O => Some ([], vars_init)
  | S n' =>
      match iterations n' with
      | Some (tr, v) =>
          match body n' v with
          | Some (evs, v') => Some (tr ++ [evs], v')
          | None => None
          end
      | None => None
      end
  end.

Definition main (epochs : nat) : option (list (list event) * vars) :=
  iterations epochs.

(** The value of [best] after the iterations [0 .. n-1]. *)
Definition best_after (n : nat) : ext :=
  match iterations n with
  | Some (_, v) => best v
  | None => Inf
  end.

Definition head_events (i : nat) : list event :=
  [SamplePointCloud i; ModelStep i].

Definition metric_events (i : nat) : list event :=
  [ReportScalar "Loss" "loss" (loss i) i;
   ReportScalar "Chamfer" "chamfer" (chamfer i * 100) i].

End Loop.

End Overfit.

(** * The Chamfer distance *)

Module Chamfer.

Section Metric.

(** The distance between two points. *)
Variable dist : point -> point -> Q.

(** Modelled from the spec: the smaller of two distances. *)
Definition Qmin (a b : Q) : Q := if Qle_bool a b then a else b.

(** Modelled from the spec: the distance from [a] to its nearest neighbour
    in [B] (0 for an empty [B]). *)
Definition nearest (a : point) (B : list point) : Q :=
  match B with
  | [] => 0%Q
  | b :: B' => fold_left (fun m b' => Qmin m (dist a b')) B' (dist a b)
  end.

(** Modelled from the spec: [torch.mean]. *)
Definition mean (xs : list Q) : Q :=
  (fold_right Qplus 0 xs / inject_Z (Z.of_nat (length xs)))%Q.

(** Modelled from the spec: the mean over [A] of the distance to the
    nearest neighbour in [B]. *)
Definition directed (A B : list point) : Q :=
  mean (map (fun a => nearest a B) A).

(** Modelled from the spec: [metrics/chamfer_dist.py], which defines
    [ChamferDistanceL1], is not among the sources.  The glossary describes
    the Chamfer distance as "a symmetric nearest-neighbor distance metric
    between two point sets": every point of either set is matched with the
    nearest point of the other set, and the two mean distances are
    averaged. *)
Definition ChamferDistanceL1 (A B : list point) : Q :=
  ((directed A B + directed B A) / 2)%Q.

End Metric.

End Chamfer.

(** * [update] and object identity *)

Module Aliasing.

(** The identity of a Python object in the parent process. *)
Definition loc : Type := BinNums.positive.

(** The objects [update] is handed: a dictionary whose values are
    tensors. *)
Inductive obj :=
| Tensor (entries : list Q)
| Dict (fields : list (string * loc)).

(** A new object. *)
Definition alloc (h : gmap loc obj) (o : obj) : loc * gmap loc obj :=
  let l := fresh (dom h) in (l, <[l := o]> h).

(** [copy.deepcopy] of a tensor; [m] is the memo dictionary of the call, so
    a tensor met twice is copied once.  [None]: not a tensor. *)
Definition copy_tensor (l : loc) (st : gmap loc loc * gmap loc obj)
  : option (loc * (gmap loc loc * gmap loc obj)) :=
  match st.1 !! l with
  | Some l' => Some (l', st)
  | None =>
      match st.2 !! l with
      | Some (Tensor xs) =>
          let r := alloc st.2 (Tensor xs) in
          Some (r.1, (<[l := r.1]> st.1, r.2))
      | _ => None
      end
  end.

Fixpoint copy_fields (fs : list (string * loc))
         (st : gmap loc loc * gmap loc obj)
  : option (list (string * loc) * (gmap loc loc * gmap loc obj)) :=
  match fs with
  | [] => Some ([], st)
  | (k, l) :: fs' =>
      match copy_tensor l st with
      | Some (l', st') =>
          match copy_fields fs' st' with
          | Some (fs'', st'') => Some ((k, l') :: fs'', st'')
          | None => None
          end
      | None => None
      end
  end.

(** [copy.deepcopy(data)]: the new object and the heap that holds it. *)
Definition deepcopy (h : gmap loc obj) (data : loc)
  : option (loc * gmap loc obj) :=
  match h !! data with
  | Some (Dict fs) =>
      match copy_fields fs (∅, h) with
      | Some (fs', st) => Some (alloc st.2 (Dict fs'))
      | None => None
      end
  | Some (Tensor xs) => Some (alloc h (Tensor xs))
  | None => None
  end.

(** Lines 134-135 on the heap: the parent's buffer of the queue holds a
    reference until the item is sent. *)
Definition update (data : loc) (h : gmap loc obj) (q : Queue.t loc)
  : option (gmap loc obj * Queue.t loc) :=
  if Queue.empty q then
    match deepcopy h data with
    | Some (l', h') =>
        match Queue.try_put Parent q l' with
        | Some q' => Some (h', q')
        | None => None
        end
    | None => None
    end
  else Some (h, q).

(** What an object looks like to whoever reads it. *)
Inductive value :=
| VTensor (entries : list Q)
| VDict (fields : list (string * list Q)).

Definition read_tensor (h : gmap loc obj) (l : loc) : option (list Q) :=
  match h !! l with
  | Some (Tensor xs) => Some xs
  | _ => None
  end.

Fixpoint read_fields (h : gmap loc obj) (fs : list (string * loc))
  : option (list (string * list Q)) :=
  match fs with
  | [] => Some []
  | (k, l) :: fs' =>
      match read_tensor h l, read_fields h fs' with
      | Some xs, Some vs => Some ((k, xs) :: vs)
      | _, _ => None
      end
  end.

Definition read (h : gmap loc obj) (l : loc) : option value :=
  match h !! l with
  | Some (Tensor xs) => Some (VTensor xs)
  | Some (Dict fs) =>
      match read_fields h fs with
      | Some vs => Some (VDict vs)
      | None => None
      end
  | None => None
  end.

(** The objects that make up the object at [l]. *)
Definition parts (h : gmap loc obj) (l : loc) : list loc :=
  l :: match h !! l with
       | Some (Dict fs) => map snd fs
       | _ => []
       end.

(** What the caller can do to the heap [h1] after a call that started in
    [h0]: anything, except to the objects the call created, to which
    it holds no reference. *)
Definition caller_writes (h0 h1 h2 : gmap loc obj) : Prop :=
  forall l, l ∈ dom h1 -> l ∉ dom h0 -> h2 !! l = h1 !! l.

End Aliasing.

(** * Vocabulary of the properties *)

(** The queue holds no more than it may. *)
Definition bounded {A} (q : Queue.t A) : Prop :=
  (length (Queue.items q) <= Queue.maxsize q)%nat.

(** The semaphore counts what is in the queue: every item holds the slot
    its [put] acquired until its [get] releases it. *)
Definition counted {A} (q : Queue.t A) : Prop :=
  Queue.acquired q = length (Queue.items q).

Definition queue_ok (s : state) : Prop :=
  Queue.maxsize (queue_in s) = 1%nat /\ bounded (queue_in s) /\
  counted (queue_in s).



(** ** The log of the start-up *)

Definition party_eqb (p q : party) : bool :=
  match p, q with
  | Parent, Parent | Child, Child => true
  | _, _ => false
  end.

Definition event_eqb (e f : event) : bool :=
  match e, f with
  | Started, Started | GuiBuilt, GuiBuilt => true
  | Wait p, Wait q | Pass p, Pass q => party_eqb p q
  | _, _ => false
  end.

(** How often [e] has happened. *)
Fixpoint occurrences (e : event) (l : list event) : nat :=
  match l with
  | [] => 0
  | f :: l' => (if event_eqb e f then 1 else 0) + occurrences e l'
  end.

(** How far each process has got with the start-up. *)
Definition parent_phase (s : state) : nat :=
  match ppc s with
  | PIdle => if setup_f s then 4 else 0
  | PStart _ => 1
  | PWait _ => 2
  | PBlocked _ => 3
  | PCheck _ | PPut _ => 4
  end.

Definition worker_phase (s : state) : nat :=
  match wpc s with
  | WNone => 0 | WBuild => 1 | WWait => 2 | WBlocked => 3 | WLoop => 4
  end.

Definition reached (n phase : nat) : nat := if (n <=? phase)%nat then 1 else 0.

(** Every [Pass Parent] in the log comes after [Started], [GuiBuilt] and
    [Wait Child]. *)
Definition parent_passes_late (l : list event) : Prop :=
  forall l1 l2, l = l1 ++ Pass Parent :: l2 ->
    In Started l1 /\ In GuiBuilt l1 /\ In (Wait Child) l1.

Record sync (s : state) : Prop := {
  sync_setup : ppc s <> PIdle -> setup_f s = true;
  sync_start : (parent_phase s <= 1 <-> worker_phase s = 0)%nat;
  sync_parent_last : (worker_phase s = 4 -> 3 <= parent_phase s)%nat;
  sync_worker_last : (parent_phase s = 4 -> 3 <= worker_phase s)%nat;
  sync_parties : Barrier.parties (barrier s) = 2%nat;
  sync_count :
    Barrier.count (barrier s) =
    ((if (parent_phase s =? 3)%nat then 1 else 0) +
     (if (worker_phase s =? 3)%nat then 1 else 0))%nat;
  sync_draining :
    Barrier.draining (barrier s) =
    (3 <=? parent_phase s)%nat && (3 <=? worker_phase s)%nat &&
    ((parent_phase s =? 3)%nat || (worker_phase s =? 3)%nat);
  sync_started : occurrences Started (log s) = reached 2 (parent_phase s);
  sync_wait_p : occurrences (Wait Parent) (log s) = reached 3 (parent_phase s);
  sync_pass_p : occurrences (Pass Parent) (log s) = reached 4 (parent_phase s);
  sync_built : occurrences GuiBuilt (log s) = reached 2 (worker_phase s);
  sync_wait_c : occurrences (Wait Child) (log s) = reached 3 (worker_phase s);
  sync_pass_c : occurrences (Pass Child) (log s) = reached 4 (worker_phase s);
  sync_order : parent_passes_late (log s)
}.

(** Point [i] of a snapshot is drawn: it is predicted inside the shape, or
    it lies on the shape and the ground truth is shown. *)
Definition drawn_at (thr : Q -> bool) (w : worker) (d : snapshot) (i : nat)
  : Prop :=
  exists p x l,
    points d !! i = Some p /\ predictions d !! i = Some x /\
    labels d !! i = Some l /\
    (thr x = true \/ (gt_f w = true /\ l = true)).

(** [c] is strictly below [b]. *)
Definition strictly_below (c : Q) (b : Overfit.ext) : Prop :=
  match b with
  | Overfit.Inf => True
  | Overfit.Fin x => (c < x)%Q
  end.

(** While the copy is made: the old heap [h0] is part of the current one,
    and the memo sends tensors of [h0] to new objects with the same
    entries. *)
Definition copying (h0 : gmap Aliasing.loc Aliasing.obj)
           (st : gmap Aliasing.loc Aliasing.loc *
                 gmap Aliasing.loc Aliasing.obj) : Prop :=
  h0 ⊆ st.2 /\
  forall o n, st.1 !! o = Some n ->
    h0 !! n = None /\
    exists xs, h0 !! o = Some (Aliasing.Tensor xs) /\
               st.2 !! n = Some (Aliasing.Tensor xs).

(** * Sample data and schedules *)

(** A stand-in for [torch.sigmoid(p) > 0.7], that is [p > ln (7/3)], which
    lies between 0.84 and 0.85: the two agree outside that interval. *)
Definition thr_sample (p : Q) : bool := Qle_bool (17 # 20) p.

(** One point on the shape, predicted inside. *)
Definition snap_a : snapshot := Snapshot [(1, 2, 3)%Q] [2%Q] [true].
(** One point on the shape, predicted outside. *)
Definition snap_b : snapshot := Snapshot [(4, 5, 6)%Q] [(-2)%Q] [true].
(** One point off the shape, predicted outside. *)
Definition snap_c : snapshot := Snapshot [(7, 8, 9)%Q] [(-5)%Q] [false].

(** The first [update(data)] together with the worker's [run()] up to the
    event loop. *)
Definition startup (data : snapshot) : list action :=
  [Update data; PStep; WStep; WStep; PStep; WStep; PStep; PStep; PStep].

(** Start-up, after which the first snapshot is sent through the pipe and
    taken out by a timer tick. *)
Definition delivered (data : snapshot) : list action :=
  startup data ++ [Feed Parent; Tick].

(** After start-up and one tick, the second [update] has found the queue
    empty when a [c] key press is handled by the worker. *)
Definition race : list action :=
  delivered snap_a ++ [Update snap_b; PStep; Key "c"].

(** The parent has put [snap_b] in the queue after the worker drew
    [snap_a], and the feeder thread has sent it. *)
Definition pending : list action :=
  delivered snap_a ++ [Update snap_b; PStep; PStep; Feed Parent].

(** Sample values: the loss and the two metrics at iteration [i]. *)
Definition loss_sample (i : nat) : Q := 1 # Pos.of_succ_nat i.
Definition chamfer_sample (i : nat) : Q := 3 # Pos.of_succ_nat i.
Definition decoded_sample (i : nat) : Q := 2 # Pos.of_succ_nat i.

(** A dictionary with three tensors, two of its keys sharing one. *)
Definition heap_sample : gmap Aliasing.loc Aliasing.obj :=
  <[1%positive := Aliasing.Dict [("points"%string, 2%positive);
                                 ("predictions"%string, 3%positive);
                                 ("labels"%string, 3%positive)]]>
    (<[2%positive := Aliasing.Tensor [1%Q; 2%Q; 3%Q]]>
       (<[3%positive := Aliasing.Tensor [1%Q]]> ∅)).

(** * [build_gui]: the wire cube *)

(** [itertools.product(xs, repeat=n)]: the last position varies fastest. *)
Fixpoint product_repeat {A} (xs : list A) (n : nat) : list (list A) :=
  match n with
  | O => [[]]
  | S n' => flat_map (fun x => map (cons x) (product_repeat xs n')) xs
  end.

(** [np.arange(a, b)]. *)
Definition arange (a b : nat) : list nat := seq a (b - a).

(** [.reshape(-1, 2)] of a vector of even length. *)
Fixpoint reshape_pairs (xs : list nat) : list (nat * nat) :=
  match xs with
  | a :: b :: rest => (a, b) :: reshape_pairs rest
  | _ => []
  end.

(** Line 56: [v]. *)
Definition cube_vertices : list (list Q) :=
  product_repeat [(-1 # 2)%Q; (1 # 2)%Q] 3.

(** The array [[0, 2], [0, 4], [2, 6], [4, 6]] of lines 58 and 59. *)
Definition cube_side : list (nat * nat) :=
  [(0, 2); (0, 4); (2, 6); (4, 6)]%nat.

(** Lines 57-59: [e]. *)
Definition cube_edges : list (nat * nat) :=
  (reshape_pairs (arange 0 8) ++ cube_side) ++
  map (fun e : nat * nat => (e.1 + 1, e.2 + 1)%nat) cube_side.

(** In how many coordinates two vertices differ. *)
Fixpoint differing (u v : list Q) : nat :=
  match u, v with
  | x :: u', y :: v' => (if Qeq_bool x y then 0 else 1) + differing u' v'
  | _, _ => 0
  end.

(** * Further vocabulary *)

(** The cube and the axes are shown exactly when [ref_f] is set. *)
Definition widths_follow_ref_f (w : worker) : Prop :=
  cube_width w = ref_width w /\
  cube_width w = (if ref_f w then 10 else 0)%Z.

(** The scene is set exactly when something has been drawn, and it is never
    set to an empty cloud. *)
Definition scene_ok (w : worker) : Prop :=
  (scatter w = None <-> redraws w = 0%nat) /\
  forall pc cols, scatter w = Some (pc, cols) -> pc <> [].

(** The colour of a point that is predicted inside the shape and carries
    the label [l]. *)
Definition colour_of (w : worker) (l : bool) : color :=
  if color_f w then (if l then green else red) else blue.

(** The snapshots a state holds: in the queue (in a buffer or in the pipe),
    in the worker's [last_data], or as the argument of the running
    [update]. *)
Definition held (s : state) (d : snapshot) : Prop :=
  In d (Queue.items (queue_in s)) \/
  last_data (wobj s) = Some d \/
  match ppc s with
  | PIdle => False
  | PStart x | PWait x | PBlocked x | PCheck x | PPut x => x = d
  end.

(** The events of a whole run, in order. *)
Definition all_events (tr : list (list Overfit.event)) : list Overfit.event :=
  concat tr.

(** How many events of a run satisfy [f]. *)
Definition count_events (f : Overfit.event -> bool)
           (tr : list (list Overfit.event)) : nat :=
  length (List.filter f (all_events tr)).

Definition is_save (file : string) (e : Overfit.event) : bool :=
  match e with
  | Overfit.Save f => String.eqb f file
  | _ => false
  end.

Definition is_scalar (title series : string) (e : Overfit.event) : bool :=
  match e with
  | Overfit.ReportScalar t s _ _ => String.eqb t title && String.eqb s series
  | _ => false
  end.

(** * Properties of the visualizer *)

(** ** Schedules *)

Lemma exec_app thr (t1 t2 : list action) (s : state) :
  exec thr (t1 ++ t2) s =
  match exec thr t1 s with Some s' => exec thr t2 s' | None => None end.
Proof.
  revert s. induction t1 as [|a t1 IH]; intros s; simpl; [reflexivity|].
  destruct (step thr a s); [apply IH | reflexivity].
Qed.

(** Whatever holds at the start and survives every step holds after every
    schedule. *)
Lemma exec_invariant thr (P : state -> Prop) :
  (forall a s s', P s -> step thr a s = Some s' -> P s') ->
  forall tr s s', P s -> exec thr tr s = Some s' -> P s'.
Proof.
  intros Hstep tr. induction tr as [|a tr IH]; intros s s' Hs H; simpl in H.
  - congruence.
  - destruct (step thr a s) as [s1|] eqn:E; [|discriminate].
    eapply IH; [eapply Hstep; eassumption | exact H].
Qed.

Ltac inv_some :=
  repeat match goal with
    | H : Some _ = Some _ |- _ => injection H as H; subst
    | H : None = Some _ |- _ => discriminate H
    | H : (if ?b then _ else _) = Some _ |- _ => destruct b eqn:?
    | H : match ?x with _ => _ end = Some _ |- _ => destruct x eqn:?
    end.

(** ** The queue never holds more than [maxsize] items *)

Lemma try_put_bounded {A} p (q q' : Queue.t A) x :
  bounded q -> counted q -> Queue.try_put p q x = Some q' ->
  bounded q' /\ counted q' /\ Queue.maxsize q' = Queue.maxsize q.
Proof.
  unfold bounded, counted, Queue.try_put, Queue.full, Queue.items.
  intros Hb Hc H.
  destruct (Nat.leb_spec (Queue.maxsize q) (Queue.acquired q));
    [discriminate|].
  injection H as <-. destruct q as [m n pb cb pp], p; simpl in *;
    rewrite ?length_app in *; simpl; repeat split; lia.
Qed.

Lemma feed_bounded {A} p (q q' : Queue.t A) :
  bounded q -> counted q -> Queue.feed p q = Some q' ->
  bounded q' /\ counted q' /\ Queue.maxsize q' = Queue.maxsize q.
Proof.
  unfold bounded, counted, Queue.feed, Queue.items.
  intros Hb Hc H.
  destruct q as [m n pb cb pp], p; simpl in *;
    [destruct pb as [|x rest] | destruct cb as [|x rest]];
    try discriminate; injection H as <-; simpl in *;
    rewrite ?length_app in *; simpl in *; rewrite ?length_app in *;
    repeat split; lia.
Qed.

Lemma try_get_bounded {A} (q q' : Queue.t A) x :
  bounded q -> counted q -> Queue.try_get q = Some (x, q') ->
  bounded q' /\ counted q' /\ Queue.maxsize q' = Queue.maxsize q.
Proof.
  unfold bounded, counted, Queue.try_get, Queue.items. intros Hb Hc H.
  destruct q as [m n pb cb [|y rest]]; simpl in *; [discriminate|].
  injection H as <- <-. simpl in *.
  rewrite ?length_app in *. repeat split; lia.
Qed.

Lemma on_timer_bounded thr w q :
  bounded q -> counted q ->
  bounded (snd (on_timer thr w q)) /\ counted (snd (on_timer thr w q)) /\
  Queue.maxsize (snd (on_timer thr w q)) = Queue.maxsize q.
Proof.
  intros Hb Hc. unfold on_timer.
  destruct (negb (Queue.empty q)); [|auto].
  destruct (Queue.try_get q) as [[d q']|] eqn:E; [|auto].
  simpl. eapply try_get_bounded; eauto.
Qed.

Lemma resend_bounded w q :
  bounded q -> counted q ->
  bounded (snd (resend w q)) /\ counted (snd (resend w q)) /\
  Queue.maxsize (snd (resend w q)) = Queue.maxsize q.
Proof.
  intros Hb Hc. unfold resend.
  destruct (last_data w) as [d|]; [|auto].
  destruct (Queue.try_put Child q d) as [q'|] eqn:E; [|auto].
  simpl. eapply try_put_bounded; eauto.
Qed.

Lemma dispatch_bounded text w q :
  bounded q -> counted q ->
  bounded (snd (dispatch text w q)) /\ counted (snd (dispatch text w q)) /\
  Queue.maxsize (snd (dispatch text w q)) = Queue.maxsize q.
Proof.
  intros Hb Hc. unfold dispatch.
  repeat (destruct (String.eqb text _); [try apply resend_bounded; auto|]).
  auto.
Qed.

Lemma queue_ok_step thr a s s' :
  queue_ok s -> step thr a s = Some s' -> queue_ok s'.
Proof.
  unfold queue_ok. intros (Hm & Hb & Hc) H.
  destruct a; simpl in H;
    unfold update_enter, stop, update_step, run_step, in_loop, feed_step in H;
    inv_some; simpl; auto.
  - match goal with E : Queue.try_put _ _ _ = Some _ |- _ =>
      destruct (try_put_bounded _ _ _ _ Hb Hc E) as (? & ? & ->) end. auto.
  - destruct (on_timer_bounded thr (wobj s) (queue_in s) Hb Hc)
      as (? & ? & ->). auto.
  - destruct (dispatch_bounded text (wobj s) (queue_in s) Hb Hc)
      as (? & ? & ->). auto.
  - match goal with E : Queue.feed _ _ = Some _ |- _ =>
      destruct (feed_bounded _ _ _ Hb Hc E) as (? & ? & ->) end. auto.
Qed.

(** In every reachable state the queue has one slot, holds no more than
    one item, and its semaphore counts the items it holds. *)
Lemma queue_ok_reachable thr (tr : list action) (s : state) :
  exec thr tr init = Some s -> queue_ok s.
Proof.
  eapply exec_invariant; [apply queue_ok_step|].
  split; [reflexivity | split; [unfold bounded; simpl; lia | reflexivity]].
Qed.

(** C4: the queue between the parent and the worker is created with
    [maxsize = 1] and keeps it; after every schedule of [update], [stop],
    [run], [on_timer] and [dispatch] steps, however interleaved, it holds at
    most one item. *)
Theorem queue_holds_at_most_one thr (tr : list action) (s : state) :
  exec thr tr init = Some s ->
  Queue.maxsize (queue_in s) = 1%nat /\
  (length (Queue.items (queue_in s)) <= 1)%nat.
Proof.
  intros H. destruct (queue_ok_reachable _ _ _ H) as (Hm & Hb & _).
  unfold bounded in Hb. rewrite Hm in Hb. auto.
Qed.

(** ** Start-up: the barrier *)

Lemma occurrences_app e l1 l2 :
  occurrences e (l1 ++ l2) = (occurrences e l1 + occurrences e l2)%nat.
Proof. induction l1 as [|f l1 IH]; simpl; [reflexivity | rewrite IH; lia]. Qed.

Lemma event_eqb_eq e f : event_eqb e f = true -> e = f.
Proof. destruct e as [| |[]|[]], f as [| |[]|[]]; simpl; congruence. Qed.

Lemma occurrences_pos e l : (0 < occurrences e l)%nat -> In e l.
Proof.
  induction l as [|f l IH]; simpl; [lia|].
  destruct (event_eqb e f) eqn:E; [left; symmetry; apply event_eqb_eq, E|].
  intros H. right. apply IH. lia.
Qed.

Lemma sync_init : sync init.
Proof.
  split; unfold parent_phase, worker_phase; simpl;
    try reflexivity; try lia; try tauto.
  intros l1 l2 H. destruct l1; discriminate.
Qed.

Lemma parent_passes_late_snoc l e :
  parent_passes_late l ->
  (e = Pass Parent -> In Started l /\ In GuiBuilt l /\ In (Wait Child) l) ->
  parent_passes_late (l ++ [e]).
Proof.
  intros Hl He l1 l2 H.
  destruct l2 as [|x l2 _] using rev_ind.
  - apply app_inj_tail in H as [-> ->]. auto.
  - change (Pass Parent :: l2 ++ [x]) with ((Pass Parent :: l2) ++ [x]) in H.
    rewrite app_assoc in H. apply app_inj_tail in H as [H _].
    eapply Hl; eauto.
Qed.

Ltac sync_field :=
  unfold parent_phase, worker_phase, reached; simpl;
  rewrite ?occurrences_app; simpl;
  first
    [ reflexivity
    | congruence
    | lia
    | tauto
    | assumption
    | (intros; discriminate)
    | (split; intros; first [lia | discriminate | congruence]) ].

Lemma sync_step thr a s s' : sync s -> step thr a s = Some s' -> sync s'.
Proof.
  intros [H1 H2 H3 H4 H5 H6 H7 H8 H9 H10 H11 H12 H13 H14] H.
  destruct s as [f pc qt wp w [n c dr] q l].
  unfold parent_phase, worker_phase, reached in *. simpl in *. subst n.
  destruct a; simpl in H;
    unfold update_enter, stop, update_step, run_step, in_loop, feed_step,
           Barrier.arrive, Barrier.leave in H; simpl in H;
    destruct pc, wp, f; simpl in *; subst; simpl in *;
    try discriminate; inv_some; try (exfalso; lia);
    try (specialize (H1 ltac:(discriminate)); discriminate);
    (split;
     [ sync_field | sync_field | sync_field | sync_field | sync_field
     | sync_field | sync_field | sync_field | sync_field | sync_field
     | sync_field | sync_field | sync_field
     | simpl;
       first
         [ assumption
         | apply parent_passes_late_snoc;
           [ assumption
           | first [ (intros; discriminate)
                   | (intros _; repeat split; apply occurrences_pos;
                      simpl in *; lia) ] ] ] ]).
Qed.

Lemma sync_reachable thr tr s : exec thr tr init = Some s -> sync s.
Proof. eapply exec_invariant; [apply sync_step | apply sync_init]. Qed.

Lemma reached_le_1 n phase : (reached n phase <= 1)%nat.
Proof. unfold reached. destruct (n <=? phase)%nat; lia. Qed.

(** C5: in every execution the worker is started once, each of the two
    processes calls [barrier.wait()] at most once and returns from it at most
    once; the parent returns from it only after [build_gui] has finished and
    the worker has called [wait()] itself; once the parent is past line 132
    all of this has happened exactly once; and it is the value of [setup_f]
    on entry that decides: a call that finds it set goes straight to the
    queue test, the call that finds it unset sets it and starts the worker. *)
Theorem barrier_passed_once_at_startup thr (tr : list action) (s : state) :
  exec thr tr init = Some s ->
  ((occurrences Started (log s) <= 1)%nat /\
   forall p, (occurrences (Wait p) (log s) <= 1)%nat /\
             (occurrences (Pass p) (log s) <= 1)%nat) /\
  parent_passes_late (log s) /\
  (parent_phase s = 4%nat ->
   occurrences Started (log s) = 1%nat /\
   occurrences (Wait Parent) (log s) = 1%nat /\
   occurrences (Pass Parent) (log s) = 1%nat /\
   In GuiBuilt (log s) /\ In (Wait Child) (log s)) /\
  (forall d, ppc s = PIdle -> setup_f s = true ->
     step thr (Update d) s = Some (with_parent true (PCheck d) s)) /\
  (forall d, setup_f s = false ->
     step thr (Update d) s = Some (with_parent true (PStart d) s)).
Proof.
  intros H. destruct (sync_reachable _ _ _ H) as
    [Hsetup _ _ Hlast _ _ _ Hst Hwp Hpp Hgb Hwc Hpc Hord].
  split; [split; [|intros []; split]|];
    rewrite ?Hst, ?Hwp, ?Hpp, ?Hwc, ?Hpc; try apply reached_le_1.
  split; [exact Hord|].
  split; [|split].
  - intros H4. specialize (Hlast H4).
    rewrite ?Hst, ?Hwp, ?Hpp, ?H4.
    repeat split; try reflexivity; apply occurrences_pos;
      rewrite ?Hgb, ?Hwc; unfold reached;
      [destruct (Nat.leb_spec 2 (worker_phase s))
      |destruct (Nat.leb_spec 3 (worker_phase s))]; lia.
  - intros d Hidle Hf. simpl. unfold update_enter. rewrite Hidle, Hf.
    reflexivity.
  - intros d Hf. simpl. unfold update_enter.
    destruct (ppc s) eqn:Hidle;
      try (rewrite Hsetup in Hf by discriminate; discriminate).
    rewrite Hf. reflexivity.
Qed.

Lemma barrier_passed_once_at_startup_witness :
  exists s,
    exec thr_sample (startup snap_a ++ [Update snap_b; PStep]) init = Some s /\
    occurrences (Wait Parent) (log s) = 1%nat.
Proof.
  eexists. split.
  - vm_compute; reflexivity.
  - eapply (barrier_passed_once_at_startup thr_sample
              (startup snap_a ++ [Update snap_b; PStep])).
    + vm_compute; reflexivity.
    + reflexivity.
Defined.

Lemma queue_holds_at_most_one_witness :
  exists s,
    exec thr_sample (delivered snap_a ++ [Key "g"]) init = Some s /\
    (length (Queue.items (queue_in s)) <= 1)%nat.
Proof.
  eexists. split.
  - vm_compute; reflexivity.
  - eapply (queue_holds_at_most_one thr_sample
              (delivered snap_a ++ [Key "g"])).
    vm_compute; reflexivity.
Defined.

(** ** [update] once the worker runs *)

(** Lines 134-135 with nothing in between.  When [empty()] sees an item,
    the call returns and has changed nothing.  When it sees none, the call
    goes on to [put]: with a free slot it returns with the snapshot in the
    parent's buffer, and with the slot taken it does not return. *)
Lemma update_after_setup (d : snapshot) (s : state) :
  ppc s = PIdle -> setup_f s = true ->
  update d s =
  if Queue.empty (queue_in s) then
    match Queue.try_put Parent (queue_in s) (deepcopy d) with
    | Some q => Some (with_queue q s)
    | None => None
    end
  else Some s.
Proof.
  destruct s as [f pc qt wp w b q l]. simpl. intros -> ->.
  unfold update, update_enter. simpl. unfold update_step. simpl.
  destruct (Queue.empty q); simpl; [|reflexivity].
  unfold update_step. simpl.
  destruct (Queue.try_put Parent q (deepcopy d)); reflexivity.
Qed.

(** C1: a call of [update] after set-up that waits.  After start-up the
    worker has drawn [snap_a]; the parent calls [update(snap_b)] and finds
    the queue empty on line 134; the worker handles the key [c] and puts
    [last_data] back in the queue; the parent now stands before the [put]
    of line 135 with the queue full, and its next step does not exist. *)
Theorem update_waits_behind_dispatch thr :
  exists s,
    exec thr race init = Some s /\
    setup_f s = true /\
    ppc s = PPut snap_b /\
    Queue.items (queue_in s) = [snap_a] /\
    step thr PStep s = None.
Proof.
  destruct (thr 2%Q) eqn:E; vm_compute in E;
    (eexists; split; [vm_compute; rewrite E; reflexivity|]);
    repeat split; reflexivity.
Qed.

(** ** What a key press does to the queue *)

Lemma resend_frame (w : worker) (q : Queue.t snapshot) :
  (resend w q).1 = w /\
  Queue.maxsize (resend w q).2 = Queue.maxsize q /\
  Queue.pipe (resend w q).2 = Queue.pipe q /\
  Queue.parent_buffer (resend w q).2 = Queue.parent_buffer q /\
  ((resend w q).2 = q \/
   exists d, last_data w = Some d /\ Queue.full q = false /\
             Queue.try_put Child q d = Some (resend w q).2 /\
             Queue.items (resend w q).2 = Queue.items q ++ [d]).
Proof.
  unfold resend, Queue.try_put.
  destruct (last_data w) as [d|] eqn:E; [|simpl; auto 10].
  destruct (Queue.full q) eqn:F; simpl; [auto 10|].
  repeat (split; [reflexivity|]). right. exists d.
  repeat (split; [reflexivity|]).
  unfold Queue.items. simpl. rewrite <- !app_assoc. reflexivity.
Qed.

Lemma dispatch_never_draws_aux (text : string) (w : worker)
      (q : Queue.t snapshot) :
  last_data (dispatch text w q).1 = last_data w /\
  ((dispatch text w q).2 = q \/
   exists d, last_data w = Some d /\ Queue.full q = false /\
             Queue.items (dispatch text w q).2 = Queue.items q ++ [d]).
Proof.
  unfold dispatch.
  repeat match goal with
    | |- context [String.eqb text ?k] => destruct (String.eqb text k)
    end;
    try match goal with
      | |- context [resend ?w' q] =>
          destruct (resend_frame w' q)
            as (-> & _ & _ & _ & [Hi|(d & Hd & Hf & _ & Hi)]);
          simpl in *; split; eauto
      end.
  - destruct (negb (ref_f w)); simpl; auto.
  - auto.
Qed.

(** ** Which snapshot the queue keeps *)


Lemma no_item_free (s : state) :
  queue_ok s -> Queue.items (queue_in s) = [] ->
  Queue.full (queue_in s) = false /\ Queue.empty (queue_in s) = true /\
  forall p, Queue.feed p (queue_in s) = None.
Proof.
  intros (Hm & _ & Hc) Hx. unfold Queue.full, Queue.empty, counted in *.
  rewrite Hm, Hc, Hx. unfold Queue.items in Hx.
  apply app_eq_nil in Hx as [-> Hx]. apply app_eq_nil in Hx as [Hp Hb].
  split; [reflexivity|]. split; [reflexivity|].
  intros []; unfold Queue.feed; simpl; [rewrite Hp | rewrite Hb];
    reflexivity.
Qed.









(** ** What a timer tick draws *)

Section Masks.

Context {A : Type}.

Lemma mask_select_nonempty (xs : list A) (mask : list bool) :
  mask_select xs mask <> [] <->
  exists i x, xs !! i = Some x /\ mask !! i = Some true.
Proof.
  revert mask. induction xs as [|x xs IH]; intros [|b mask]; simpl.
  - split; [congruence | intros (i & y & H & _); destruct i; discriminate].
  - split; [congruence | intros (i & y & H & _); destruct i; discriminate].
  - split; [congruence | intros (i & y & _ & H); destruct i; discriminate].
  - destruct b.
    + split; [intros _; exists 0%nat, x; auto | congruence].
    + rewrite IH. split.
      * intros (i & y & H1 & H2). exists (S i), y. auto.
      * intros (i & y & H1 & H2). destruct i as [|i]; [discriminate|].
        exists i, y. auto.
Qed.

Lemma mask_select_length (xs : list A) (ys : list bool) (mask : list bool) :
  length xs = length ys ->
  length (mask_select xs mask) = length (mask_select ys mask).
Proof.
  revert ys mask. induction xs as [|x xs IH]; intros [|y ys] [|b mask] H;
    simpl in *; try reflexivity; try discriminate.
  injection H as H. destruct b; simpl; rewrite (IH ys mask H); reflexivity.
Qed.

End Masks.

Lemma lookup_map_Some {A B} (f : A -> B) (l : list A) (i : nat) (y : B) :
  map f l !! i = Some y <-> exists x, l !! i = Some x /\ f x = y.
Proof.
  revert i. induction l as [|a l IH]; intros [|i]; simpl.
  - split; [discriminate | intros (x & H & _); discriminate].
  - split; [discriminate | intros (x & H & _); discriminate].
  - split; [intros [= <-]; eauto | intros (x & [= <-] & <-); reflexivity].
  - apply IH.
Qed.

Lemma lookup_mask_and (a b : list bool) (i : nat) :
  mask_and a b !! i = Some true <->
  a !! i = Some true /\ b !! i = Some true.
Proof.
  revert b i. induction a as [|x a IH]; intros [|y b] [|i]; simpl;
    try (split; [discriminate | intros [? ?]; discriminate]).
  - destruct x, y; simpl; split; try discriminate; try tauto;
      intros [? ?]; discriminate.
  - apply IH.
Qed.

Lemma cloud_nonempty thr (w : worker) (d : snapshot) :
  wf_snapshot d ->
  cloud thr w d <> [] <-> exists i, drawn_at thr w d i.
Proof.
  intros [Hp Hl]. unfold cloud, positive, false_negative,
    false_negative_idxs, mask_not, positive_idxs, drawn_at.
  assert (Hlab : forall i p, points d !! i = Some p ->
                             exists l, labels d !! i = Some l).
  { intros i p H. apply lookup_lt_Some in H.
    destruct (lookup_lt_is_Some_2 (labels d) i) as [l Hl']; [lia | eauto]. }
  destruct (gt_f w).
  - split.
    + intros H.
      destruct (mask_select (points d) (map thr (predictions d)))
        as [|p0 rest] eqn:E.
      * simpl in H. apply mask_select_nonempty in H as (i & p & H1 & H2).
        apply lookup_mask_and in H2 as [H2 H3].
        apply lookup_map_Some in H3 as (b & H3 & Hb).
        apply lookup_map_Some in H3 as (x & H3 & <-).
        exists i, p, x, true. auto 10.
      * assert (Hne : mask_select (points d) (map thr (predictions d)) <> [])
          by (rewrite E; discriminate).
        apply mask_select_nonempty in Hne as (i & p & H1 & H2).
        apply lookup_map_Some in H2 as (x & H2 & Hx).
        destruct (Hlab i p H1) as [l Hl'].
        exists i, p, x, l. auto 10.
    + intros (i & p & x & l & H1 & H2 & H3 & H4) Hnil.
      apply app_eq_nil in Hnil as [Hn1 Hn2].
      destruct (thr x) eqn:Hx.
      * revert Hn1. apply mask_select_nonempty. exists i, p. split; [auto|].
        apply lookup_map_Some. eauto.
      * destruct H4 as [H4 | [_ ->]]; [discriminate|].
        revert Hn2. apply mask_select_nonempty. exists i, p. split; [auto|].
        apply lookup_mask_and. split; [auto|].
        apply lookup_map_Some. exists false. split; [|reflexivity].
        apply lookup_map_Some. eauto.
  - rewrite mask_select_nonempty. split.
    + intros (i & p & H1 & H2).
      apply lookup_map_Some in H2 as (x & H2 & Hx).
      destruct (Hlab i p H1) as [l Hl'].
      exists i, p, x, l. auto 10.
    + intros (i & p & x & l & H1 & H2 & H3 & [H4 | [H4 _]]);
        [|discriminate].
      exists i, p. split; [auto|]. apply lookup_map_Some. eauto.
Qed.

(** One colour per point. *)
Lemma colors_length thr (w : worker) (d : snapshot) :
  wf_snapshot d -> length (colors thr w d) = length (cloud thr w d).
Proof.
  intros [Hp Hl]. unfold colors, cloud, p_colors, positive.
  pose proof (mask_select_length (points d) (labels d) (positive_idxs thr d)
                (eq_sym Hl)) as H.
  destruct (gt_f w), (color_f w);
    rewrite ?length_app, ?length_map, ?repeat_length, <- ?H; reflexivity.
Qed.

Lemma draw_frame thr (d : snapshot) (w : worker) :
  color_f (draw thr d w) = color_f w /\ gt_f (draw thr d w) = gt_f w /\
  ref_f (draw thr d w) = ref_f w /\ last_data (draw thr d w) = last_data w /\
  cube_width (draw thr d w) = cube_width w /\
  ref_width (draw thr d w) = ref_width w.
Proof. unfold draw. destruct (cloud thr w d); simpl; auto 10. Qed.

(** C3, as the code has it: with an empty queue ([empty()] finds nothing
    in the pipe) a tick changes nothing.  With a non-empty queue a tick
    removes exactly the oldest item, which frees its slot, and records it as
    [last_data]; it redraws (one [scatter.set_data] call, with the selected
    points mirrored in y and one colour per point) exactly when some point
    of the item is drawn, and otherwise leaves the scene as it was. *)
Theorem on_timer_redraws_nonempty_cloud thr (w : worker)
        (q : Queue.t snapshot) :
  match Queue.pipe q with
  | [] => on_timer thr w q = (w, q)
  | d :: rest =>
      wf_snapshot d ->
      exists w',
        on_timer thr w q =
          (w', Queue.Make (Queue.maxsize q) (pred (Queue.acquired q))
                          (Queue.parent_buffer q) (Queue.child_buffer q)
                          rest) /\
        last_data w' = Some d /\
        ((exists i, drawn_at thr w d i) ->
         redraws w' = S (redraws w) /\
         exists cols,
           scatter w' = Some (map flip_y (cloud thr w d), cols) /\
           length cols = length (cloud thr w d) /\ cloud thr w d <> []) /\
        (~ (exists i, drawn_at thr w d i) ->
         redraws w' = redraws w /\ scatter w' = scatter w)
  end.
Proof.
  unfold on_timer, Queue.empty, Queue.try_get.
  destruct (Queue.pipe q) as [|d rest]; simpl; [reflexivity|].
  intros Hwf. eexists. split; [reflexivity|].
  pose proof (cloud_nonempty thr (set_last_data d w) d Hwf) as Hc.
  pose proof (colors_length thr (set_last_data d w) d Hwf) as Hlen.
  assert (Hd : forall i, drawn_at thr (set_last_data d w) d i <->
                         drawn_at thr w d i) by (intros i; reflexivity).
  assert (Hcl : cloud thr (set_last_data d w) d = cloud thr w d)
    by reflexivity.
  rewrite Hcl in *.
  split; [apply draw_frame|]. unfold draw. rewrite Hcl.
  split.
  - intros Hex. apply Hc in Hex.
    destruct (cloud thr w d) as [|p ps] eqn:E; [congruence|]. simpl.
    split; [reflexivity|]. eexists. split; [reflexivity|].
    split; [exact Hlen | discriminate].
  - intros Hno.
    destruct (cloud thr w d) as [|p ps] eqn:E; [simpl; auto|].
    exfalso. apply Hno, Hc. discriminate.
Qed.

Lemma on_timer_redraws_nonempty_cloud_witness :
  exists w',
    on_timer thr_sample worker_init (Queue.Make 1 1 [] [] [snap_b]) =
      (w', Queue.Make 1 0 [] [] []) /\
    last_data w' = Some snap_b /\ redraws w' = 1%nat.
Proof.
  destruct (on_timer_redraws_nonempty_cloud thr_sample worker_init
              (Queue.Make 1 1 [] [] [snap_b]))
    as (w' & H1 & H2 & H3 & _).
  - split; reflexivity.
  - exists w'. split; [exact H1|]. split; [exact H2|].
    apply H3. exists 0%nat, (4, 5, 6)%Q, (-2)%Q, true.
    repeat split; auto.
Defined.

(** C3, as stated, fails: the queue holds [snap_c], one point that lies off
    the shape and is predicted outside it (every threshold that rejects the
    logit [-5] will do).  The tick removes the item and records it, and
    nothing is redrawn. *)
Lemma tick_without_redraw :
  Queue.empty (Queue.Make 1 1 [] [] [snap_c]) = false /\
  wf_snapshot snap_c /\
  (forall thr, thr (-5)%Q = false ->
     on_timer thr worker_init (Queue.Make 1 1 [] [] [snap_c]) =
       (set_last_data snap_c worker_init, Queue.Make 1 0 [] [] []) /\
     redraws (fst (on_timer thr worker_init
                     (Queue.Make 1 1 [] [] [snap_c]))) =
       redraws worker_init) /\
  thr_sample (-5)%Q = false.
Proof.
  split; [reflexivity|]. split; [split; reflexivity|].
  split; [|reflexivity].
  intros thr H. unfold on_timer, draw, cloud, positive, false_negative,
    false_negative_idxs, positive_idxs. simpl. rewrite H. simpl.
  split; reflexivity.
Qed.

(** ** [stop] *)

(** [stop] touches neither the queue nor anything the worker owns, and the
    worker's event loop handles its events afterwards as before. *)
Lemma stop_frame thr (s s' : state) :
  step thr Stop s = Some s' ->
  queue_in s' = queue_in s /\ wpc s' = wpc s /\ wobj s' = wobj s /\
  barrier s' = barrier s /\ parent_app_quit s' = true /\
  step thr Tick s' = option_map with_quit (step thr Tick s) /\
  forall text,
    step thr (Key text) s' = option_map with_quit (step thr (Key text) s).
Proof.
  simpl. unfold stop. destruct (ppc s) eqn:E; try discriminate.
  intros [= <-]. unfold in_loop. simpl.
  repeat split; try reflexivity; intros; destruct (wpc s); reflexivity.
Qed.

(** C6: [stop()] called by the parent while [snap_b] is pending.  The call
    performs no queue operation, but it does not end the worker's event
    loop either: the worker is still inside [app.run()], and its next timer
    tick takes [snap_b] out of the queue and records it. *)
Theorem stop_leaves_worker_running thr :
  exists s s1 s2,
    exec thr pending init = Some s /\
    Queue.items (queue_in s) = [snap_b] /\
    step thr Stop s = Some s1 /\
    queue_in s1 = queue_in s /\
    parent_app_quit s1 = true /\
    wpc s1 = WLoop /\
    step thr Tick s1 = Some s2 /\
    Queue.items (queue_in s2) = [] /\
    last_data (wobj s2) = Some snap_b.
Proof.
  destruct (thr 2%Q) eqn:E2, (thr (-2)%Q) eqn:E3;
    vm_compute in E2; vm_compute in E3;
    (do 3 eexists;
     split; [vm_compute; rewrite E2; reflexivity|];
     split; [reflexivity|];
     split; [reflexivity|];
     split; [reflexivity|];
     split; [reflexivity|];
     split; [reflexivity|];
     split; [vm_compute; rewrite E3; reflexivity|];
     split; reflexivity).
Qed.

(** ** Properties of the training loop *)

Lemma gt_strictly_below (b : Overfit.ext) (c : Q) :
  Overfit.gt b c = true <-> strictly_below c b.
Proof.
  destruct b as [x|]; simpl; [|tauto].
  rewrite negb_true_iff, <- not_true_iff_false, Qle_bool_iff.
  split; [apply Qnot_le_lt | apply Qlt_not_le].
Qed.

Lemma multiple_of_5000_1000 (n : nat) :
  (n mod 5000 = 0 -> n mod 1000 = 0)%nat.
Proof.
  intros H. apply Nat.Div0.mod_divides in H as [c ->].
  apply Nat.Div0.mod_divides. exists (5 * c)%nat. lia.
Qed.

Lemma log_due_spec (i : nat) :
  Overfit.log_due i = true <-> ((i + 1) mod 1000 = 0)%nat.
Proof. unfold Overfit.log_due. apply Nat.eqb_eq. Qed.

Lemma checkpoint_due_spec (i : nat) :
  Overfit.checkpoint_due i = true <-> ((i + 1) mod 5000 = 0)%nat.
Proof. unfold Overfit.checkpoint_due. apply Nat.eqb_eq. Qed.

Lemma checkpoint_due_log_due (i : nat) :
  Overfit.checkpoint_due i = true -> Overfit.log_due i = true.
Proof.
  rewrite log_due_spec, checkpoint_due_spec. apply multiple_of_5000_1000.
Qed.

Section LoopProperties.

Variables loss chamfer decoded : nat -> Q.

Abbreviation body := (Overfit.body loss chamfer decoded).
Abbreviation iterations := (Overfit.iterations loss chamfer decoded).
Abbreviation figures := (Overfit.figures decoded).
Abbreviation best_after := (Overfit.best_after loss chamfer decoded).
Abbreviation head_events := Overfit.head_events.
Abbreviation metric_events := (Overfit.metric_events loss chamfer).

(** The four ways through the body of the loop. *)
Lemma body_cases (i : nat) (v : Overfit.vars) :
  (Overfit.log_due i = false /\ Overfit.checkpoint_due i = false /\
   body i v = Some (head_events i ++ [Overfit.SetPostfix (loss i)], v)) \/
  (Overfit.log_due i = true /\ Overfit.checkpoint_due i = false /\
   body i v =
   Some (head_events i ++ metric_events i ++ [Overfit.SetPostfix (loss i)],
         Overfit.Vars (Overfit.best v) (Some (chamfer i)))) \/
  (Overfit.log_due i = true /\ Overfit.checkpoint_due i = true /\
   Overfit.gt (Overfit.best v) (chamfer i) = true /\
   body i v =
   Some (head_events i ++ metric_events i ++
         (figures i ++ [Overfit.Save "latest.pth"; Overfit.Save "best.pth"]) ++
         [Overfit.SetPostfix (loss i)],
         Overfit.Vars (Overfit.Fin (chamfer i)) (Some (chamfer i)))) \/
  (Overfit.log_due i = true /\ Overfit.checkpoint_due i = true /\
   Overfit.gt (Overfit.best v) (chamfer i) = false /\
   body i v =
   Some (head_events i ++ metric_events i ++
         (figures i ++ [Overfit.Save "latest.pth"]) ++
         [Overfit.SetPostfix (loss i)],
         Overfit.Vars (Overfit.best v) (Some (chamfer i)))).
Proof.
  unfold Overfit.body, Overfit.log_block, Overfit.checkpoint_block.
  pose proof (checkpoint_due_log_due i) as H51.
  destruct (Overfit.log_due i) eqn:H1;
    destruct (Overfit.checkpoint_due i) eqn:H5; simpl.
  - destruct (Overfit.gt (Overfit.best v) (chamfer i)) eqn:G.
    + right. right. left. repeat split; reflexivity.
    + right. right. right. repeat split; reflexivity.
  - right. left. repeat split; reflexivity.
  - specialize (H51 eq_refl). discriminate.
  - left. destruct v. repeat split; reflexivity.
Qed.

Lemma iterations_total (n : nat) :
  exists tr v, iterations n = Some (tr, v) /\ length tr = n.
Proof.
  induction n as [|n (tr & v & IH & Hlen)]; simpl.
  - exists [], Overfit.vars_init. auto.
  - rewrite IH.
    destruct (body_cases n v) as [(_ & _ & ->)|[(_ & _ & ->)|
      [(_ & _ & _ & ->)|(_ & _ & _ & ->)]]];
      do 2 eexists; (split; [reflexivity|]); rewrite length_app; simpl; lia.
Qed.

(** The events of iteration [i] are those its body produces from the
    variables the earlier iterations leave. *)
Lemma iterations_lookup (n i : nat) tr v :
  iterations n = Some (tr, v) -> (i < n)%nat ->
  exists tri vi evs v',
    iterations i = Some (tri, vi) /\ body i vi = Some (evs, v') /\
    tr !! i = Some evs.
Proof.
  revert tr v. induction n as [|n IH]; intros tr v H Hi; [lia|].
  simpl in H.
  destruct (iterations n) as [[tr0 v0]|] eqn:E; [|discriminate].
  destruct (body n v0) as [[evs v1]|] eqn:B; [|discriminate].
  injection H as <- <-.
  destruct (iterations_total n) as (tr0' & v0' & E' & Hlen).
  rewrite E in E'. injection E' as <- <-.
  destruct (Nat.eq_dec i n) as [->|Hne].
  - exists tr0, v0, evs, v1. repeat split; auto.
    rewrite lookup_app_r by lia. rewrite Hlen, Nat.sub_diag. reflexivity.
  - destruct (IH tr0 v0 eq_refl ltac:(lia)) as (tri & vi & evs' & v' & ? & ? & ?).
    exists tri, vi, evs', v'. repeat split; auto.
    rewrite lookup_app_l by lia. assumption.
Qed.

Lemma due_true (P : Prop) : (true = true <-> P) -> P.
Proof. intros H. apply H. reflexivity. Qed.

Lemma due_false (P : Prop) : (false = true <-> P) -> ~ P.
Proof. intros H HP. apply H in HP. discriminate. Qed.

Ltac in_events :=
  unfold Overfit.head_events, Overfit.metric_events, Overfit.figures; simpl;
  repeat match goal with
    | |- _ /\ _ => split
    | |- _ <-> _ => split
    | |- forall _, _ => intro
    | H : _ \/ _ |- _ => destruct H
    | H : _ /\ _ |- _ => destruct H
    | H : False |- _ => destruct H
    | H : _ = _ |- _ => first [discriminate H | subst]
    end;
  simpl; try tauto; try congruence; try discriminate; try reflexivity;
  auto 12.

(** C7: the loop runs all [epochs] iterations.  Iteration [i] begins with
    the sampling and one model step; it reports the scalars [Loss/loss] and
    [Chamfer/chamfer] exactly when [i + 1] is a multiple of 1000; it writes
    [latest.pth] and reports the three figures exactly when [i + 1] is a
    multiple of 5000; and an iteration with [i + 1] not a multiple of 1000
    reports nothing and saves nothing. *)
Theorem training_loop_periods (epochs : nat) :
  exists tr v,
    Overfit.main loss chamfer decoded epochs = Some (tr, v) /\
    length tr = epochs /\
    forall i, (i < epochs)%nat ->
      exists evs rest,
        tr !! i = Some evs /\
        evs = Overfit.SamplePointCloud i :: Overfit.ModelStep i :: rest /\
        (In (Overfit.ReportScalar "Loss" "loss" (loss i) i) evs <->
         ((i + 1) mod 1000 = 0)%nat) /\
        (In (Overfit.ReportScalar "Chamfer" "chamfer" (chamfer i * 100) i) evs
         <-> ((i + 1) mod 1000 = 0)%nat) /\
        (In (Overfit.Save "latest.pth") evs <-> ((i + 1) mod 5000 = 0)%nat) /\
        (forall series,
           In series ["precision_recall"; "reconstruction"; "input points"] ->
           (In (Overfit.ReportPlotly "Point Clouds" series i) evs <->
            ((i + 1) mod 5000 = 0)%nat)) /\
        (forall e, In e evs -> Overfit.is_checkpoint e = true ->
                   ((i + 1) mod 5000 = 0)%nat) /\
        (forall e, In e evs -> Overfit.is_log e = true ->
                   ((i + 1) mod 1000 = 0)%nat).
Proof.
  unfold Overfit.main.
  destruct (iterations_total epochs) as (tr & v & Hrun & Hlen).
  exists tr, v. split; [exact Hrun|]. split; [exact Hlen|].
  intros i Hi.
  destruct (iterations_lookup epochs i tr v Hrun Hi)
    as (tri & vi & evs & v' & _ & Hbody & Hlook).
  exists evs, (tl (tl evs)). split; [exact Hlook|].
  pose proof (log_due_spec i) as HL.
  pose proof (checkpoint_due_spec i) as HC.
  set (L := ((i + 1) mod 1000 = 0)%nat) in *.
  set (C := ((i + 1) mod 5000 = 0)%nat) in *.
  clearbody L C.
  destruct (body_cases i vi)
    as [(H1 & H5 & Hb)|[(H1 & H5 & Hb)|[(H1 & H5 & _ & Hb)|(H1 & H5 & _ & Hb)]]];
    rewrite Hb in Hbody; injection Hbody as <- <-;
    rewrite H1 in HL; rewrite H5 in HC;
    first [apply due_true in HL | apply due_false in HL];
    first [apply due_true in HC | apply due_false in HC];
    clear - HL HC; in_events.
Qed.

Lemma ext_le_refl (a : Overfit.ext) : Overfit.ext_le a a.
Proof. destruct a; simpl; [apply Qle_refl | exact I]. Qed.

Lemma ext_le_trans (a b c : Overfit.ext) :
  Overfit.ext_le a b -> Overfit.ext_le b c -> Overfit.ext_le a c.
Proof.
  destruct a, b, c; simpl; try tauto. apply Qle_trans.
Qed.

Lemma strictly_below_le (c : Q) (b : Overfit.ext) :
  strictly_below c b -> Overfit.ext_le (Overfit.Fin c) b.
Proof. destruct b; simpl; [apply Qlt_le_weak | tauto]. Qed.

Lemma not_gt_le (b : Overfit.ext) (c : Q) :
  Overfit.gt b c = false -> Overfit.ext_le b (Overfit.Fin c).
Proof.
  destruct b as [x|]; simpl; [|discriminate].
  rewrite negb_false_iff. apply Qle_bool_iff.
Qed.

(** One iteration more: the events it adds and what it does to [best]. *)
Lemma iterations_S (n : nat) :
  exists tr v evs v',
    iterations n = Some (tr, v) /\ length tr = n /\
    body n v = Some (evs, v') /\
    iterations (S n) = Some (tr ++ [evs], v') /\
    (In (Overfit.Save "best.pth") evs <->
     Overfit.checkpoint_due n = true /\
     Overfit.gt (Overfit.best v) (chamfer n) = true) /\
    Overfit.best v' =
    (if Overfit.checkpoint_due n && Overfit.gt (Overfit.best v) (chamfer n)
     then Overfit.Fin (chamfer n) else Overfit.best v).
Proof.
  destruct (iterations_total n) as (tr & v & Hrun & Hlen).
  exists tr, v. simpl. rewrite Hrun.
  destruct (body_cases n v)
    as [(H1 & H5 & Hb)|[(H1 & H5 & Hb)|[(H1 & H5 & G & Hb)|(H1 & H5 & G & Hb)]]];
    rewrite Hb, H5; try rewrite G; do 2 eexists;
    (split; [reflexivity|]); (split; [exact Hlen|]);
    (split; [reflexivity|]); (split; [reflexivity|]);
    clear; in_events.
Qed.

Lemma best_after_S (n : nat) :
  best_after (S n) =
  (if Overfit.checkpoint_due n && Overfit.gt (best_after n) (chamfer n)
   then Overfit.Fin (chamfer n) else best_after n).
Proof.
  destruct (iterations_S n) as (tr & v & evs & v' & Hn & _ & _ & HS & _ & Hb).
  unfold best_after. rewrite Hn, HS. exact Hb.
Qed.

Lemma best_after_minimum (n : nat) :
  (forall j, (j < n)%nat -> Overfit.checkpoint_due j = true ->
             Overfit.ext_le (best_after n) (Overfit.Fin (chamfer j))) /\
  ((best_after n = Overfit.Inf /\
    forall j, (j < n)%nat -> Overfit.checkpoint_due j = false) \/
   exists j, (j < n)%nat /\ Overfit.checkpoint_due j = true /\
             best_after n = Overfit.Fin (chamfer j)).
Proof.
  induction n as [|n [IHle IHex]].
  - split; [intros j Hj; lia|]. left. split; [reflexivity | intros j Hj; lia].
  - rewrite best_after_S.
    destruct (Overfit.checkpoint_due n) eqn:Hc; simpl.
    + destruct (Overfit.gt (best_after n) (chamfer n)) eqn:G.
      * split.
        -- intros j Hj Hcj. destruct (Nat.eq_dec j n) as [->|Hne].
           ++ apply ext_le_refl.
           ++ eapply ext_le_trans; [|apply IHle; [lia | exact Hcj]].
              apply strictly_below_le, gt_strictly_below, G.
        -- right. exists n. auto.
      * split.
        -- intros j Hj Hcj. destruct (Nat.eq_dec j n) as [->|Hne].
           ++ apply not_gt_le, G.
           ++ apply IHle; [lia | exact Hcj].
        -- right. destruct IHex as [[Hinf _]|(j & Hj & Hcj & Hb)].
           ++ rewrite Hinf in G. discriminate.
           ++ exists j. split; [lia | auto].
    + split.
      * intros j Hj Hcj. destruct (Nat.eq_dec j n) as [->|Hne];
          [congruence | apply IHle; [lia | exact Hcj]].
      * destruct IHex as [[Hinf Hno]|(j & Hj & Hcj & Hb)].
        -- left. split; [exact Hinf|]. intros j Hj.
           destruct (Nat.eq_dec j n) as [->|Hne]; [exact Hc | apply Hno; lia].
        -- right. exists j. split; [lia | auto].
Qed.

(** C8: [best] starts at infinity.  Iteration [n] writes [best.pth] exactly
    when it is a checkpoint step ([n + 1] a multiple of 5000) and the current
    chamfer value is strictly below the best so far, and [best] becomes that
    value then and stays otherwise.  After any number of iterations [best] is
    the minimum of the chamfer values at the checkpoint steps so far: it is
    below all of them and it is one of them (or still infinity when there was
    no checkpoint step).  So [best] never increases. *)
Theorem best_is_running_minimum (n : nat) :
  best_after 0 = Overfit.Inf /\
  (exists tr v evs,
     iterations (S n) = Some (tr ++ [evs], v) /\ length tr = n /\
     Overfit.best v = best_after (S n) /\
     (In (Overfit.Save "best.pth") evs <->
      ((n + 1) mod 5000 = 0)%nat /\
      strictly_below (chamfer n) (best_after n))) /\
  (forall j, (j < n)%nat -> ((j + 1) mod 5000 = 0)%nat ->
             Overfit.ext_le (best_after n) (Overfit.Fin (chamfer j))) /\
  ((best_after n = Overfit.Inf /\
    forall j, (j < n)%nat -> ((j + 1) mod 5000 <> 0)%nat) \/
   exists j, (j < n)%nat /\ ((j + 1) mod 5000 = 0)%nat /\
             best_after n = Overfit.Fin (chamfer j)) /\
  Overfit.ext_le (best_after (S n)) (best_after n).
Proof.
  split; [reflexivity|]. split; [|split; [|split]].
  - destruct (iterations_S n) as (tr & v & evs & v' & Hn & Hlen & _ & HS & Hin & _).
    exists tr, v', evs. split; [exact HS|]. split; [exact Hlen|].
    split; [unfold best_after; rewrite HS; reflexivity|].
    rewrite Hin, checkpoint_due_spec, gt_strictly_below.
    unfold best_after. rewrite Hn. reflexivity.
  - intros j Hj Hc. apply best_after_minimum; [exact Hj|].
    apply checkpoint_due_spec, Hc.
  - destruct (best_after_minimum n) as [_ [[Hinf Hno]|(j & Hj & Hc & Hb)]].
    + left. split; [exact Hinf|]. intros j Hj Hc.
      apply checkpoint_due_spec in Hc. rewrite (Hno j Hj) in Hc. discriminate.
    + right. exists j. split; [exact Hj|]. split; [|exact Hb].
      apply checkpoint_due_spec, Hc.
  - rewrite best_after_S.
    destruct (Overfit.checkpoint_due n); simpl; [|apply ext_le_refl].
    destruct (Overfit.gt (best_after n) (chamfer n)) eqn:G;
      [|apply ext_le_refl].
    apply strictly_below_le, gt_strictly_below, G.
Qed.

End LoopProperties.

Lemma training_loop_periods_witness :
  exists tr v evs,
    Overfit.main loss_sample chamfer_sample decoded_sample 5000 =
      Some (tr, v) /\
    tr !! 4999%nat = Some evs /\ In (Overfit.Save "latest.pth") evs.
Proof.
  destruct (training_loop_periods loss_sample chamfer_sample decoded_sample
              5000) as (tr & v & Hmain & _ & Hall).
  destruct (Hall 4999%nat ltac:(lia))
    as (evs & rest & Hlook & _ & _ & _ & Hsave & _).
  exists tr, v, evs. split; [exact Hmain|]. split; [exact Hlook|].
  apply Hsave. reflexivity.
Defined.

Lemma best_is_running_minimum_witness :
  exists tr v evs,
    Overfit.iterations loss_sample chamfer_sample decoded_sample 5000 =
      Some (tr ++ [evs], v) /\
    In (Overfit.Save "best.pth") evs.
Proof.
  destruct (best_is_running_minimum loss_sample chamfer_sample decoded_sample
              4999)
    as (_ & (tr & v & evs & Hrun & _ & _ & Hbest) & _ & Hmin & _).
  exists tr, v, evs. split; [exact Hrun|].
  apply Hbest. split; [reflexivity|].
  destruct Hmin as [[-> _]|(j & Hj & Hc & _)]; [exact I|].
  exfalso. rewrite Nat.mod_small in Hc by lia. lia.
Defined.

(** C9: the metric gives the same value for a pair of point sets in either
    order. *)
Theorem chamfer_symmetric (dist : point -> point -> Q) (A B : list point) :
  Chamfer.ChamferDistanceL1 dist A B = Chamfer.ChamferDistanceL1 dist B A.
Proof.
  unfold Chamfer.ChamferDistanceL1. f_equal.
  generalize (Chamfer.directed dist A B) as x.
  generalize (Chamfer.directed dist B A) as y.
  intros [yn yd] [xn xd]. unfold Qplus. simpl.
  rewrite Z.add_comm, Pos.mul_comm. reflexivity.
Qed.

(** ** [update] copies its argument *)

Lemma alloc_fresh (h : gmap Aliasing.loc Aliasing.obj) (o : Aliasing.obj) :
  h !! (Aliasing.alloc h o).1 = None /\
  (Aliasing.alloc h o).2 !! (Aliasing.alloc h o).1 = Some o /\
  h ⊆ (Aliasing.alloc h o).2.
Proof.
  unfold Aliasing.alloc. simpl.
  assert (Hf : h !! fresh (dom h) = None)
    by (apply not_elem_of_dom, is_fresh).
  split; [exact Hf|]. split; [apply lookup_insert_eq|].
  apply insert_subseteq, Hf.
Qed.

Lemma copy_tensor_ok h0 st l xs :
  copying h0 st -> h0 !! l = Some (Aliasing.Tensor xs) ->
  exists l' st',
    Aliasing.copy_tensor l st = Some (l', st') /\
    copying h0 st' /\ st.2 ⊆ st'.2 /\
    h0 !! l' = None /\ st'.2 !! l' = Some (Aliasing.Tensor xs).
Proof.
  intros [Hsub Hmemo] Hl. unfold Aliasing.copy_tensor.
  destruct (st.1 !! l) as [l'|] eqn:Hm.
  - destruct (Hmemo l l' Hm) as (Hnew & xs' & Hl' & Hcopy).
    exists l', st. rewrite Hl in Hl'. injection Hl' as <-.
    split; [reflexivity|]. split; [split; assumption|].
    split; [reflexivity|]. split; assumption.
  - rewrite (lookup_weaken _ _ _ _ Hl Hsub).
    destruct (alloc_fresh st.2 (Aliasing.Tensor xs)) as (Hf & Hget & Hext).
    set (r := Aliasing.alloc st.2 (Aliasing.Tensor xs)) in *.
    assert (Hnew : h0 !! r.1 = None).
    { destruct (h0 !! r.1) as [o|] eqn:E; [|reflexivity].
      rewrite (lookup_weaken _ _ _ _ E Hsub) in Hf. discriminate. }
    exists r.1, (<[l := r.1]> st.1, r.2). simpl.
    split; [reflexivity|]. split; [|auto].
    split; simpl; [etransitivity; eassumption|].
    intros o n Hon. destruct (decide (l = o)) as [->|Hne].
    + rewrite lookup_insert_eq in Hon. injection Hon as <-.
      split; [exact Hnew|]. exists xs. auto.
    + rewrite lookup_insert_ne in Hon by exact Hne.
      destruct (Hmemo o n Hon) as (Hn & ys & Ho & Hc).
      split; [exact Hn|]. exists ys. split; [exact Ho|].
      eapply lookup_weaken; eassumption.
Qed.

Lemma read_fields_weaken (h h' : gmap Aliasing.loc Aliasing.obj) fs vs :
  h ⊆ h' -> Aliasing.read_fields h fs = Some vs ->
  Aliasing.read_fields h' fs = Some vs.
Proof.
  intros Hsub. revert vs. induction fs as [|[k l] fs IH]; intros vs; simpl;
    [auto|].
  unfold Aliasing.read_tensor.
  destruct (h !! l) as [[xs|]|] eqn:E; try discriminate.
  destruct (Aliasing.read_fields h fs) as [vs'|]; [|discriminate].
  intros [= <-]. rewrite (lookup_weaken _ _ _ _ E Hsub), (IH vs' eq_refl).
  reflexivity.
Qed.

Lemma copy_fields_ok h0 fs : forall st vs,
  copying h0 st -> Aliasing.read_fields h0 fs = Some vs ->
  exists fs' st',
    Aliasing.copy_fields fs st = Some (fs', st') /\
    copying h0 st' /\ st.2 ⊆ st'.2 /\
    Aliasing.read_fields st'.2 fs' = Some vs /\
    Forall (fun l' => h0 !! l' = None /\ is_Some (st'.2 !! l'))
           (map snd fs').
Proof.
  induction fs as [|[k l] fs IH]; intros st vs Hinv Hread; simpl in *.
  - injection Hread as <-. exists [], st.
    split; [reflexivity|]. split; [exact Hinv|]. split; [reflexivity|].
    split; [reflexivity | constructor].
  - unfold Aliasing.read_tensor in Hread.
    destruct (h0 !! l) as [[xs|]|] eqn:Hl; try discriminate.
    destruct (Aliasing.read_fields h0 fs) as [vs'|] eqn:Hrest;
      [|discriminate].
    injection Hread as <-.
    destruct (copy_tensor_ok h0 st l xs Hinv Hl)
      as (l' & st1 & -> & Hinv1 & Hsub1 & Hnew & Hcopy).
    destruct (IH st1 vs' Hinv1 eq_refl)
      as (fs' & st2 & -> & Hinv2 & Hsub2 & Hread2 & Hall).
    exists ((k, l') :: fs'), st2.
    split; [reflexivity|]. split; [exact Hinv2|].
    split; [etransitivity; eassumption|].
    pose proof (lookup_weaken _ _ _ _ Hcopy Hsub2) as Hcopy2.
    split.
    + simpl. unfold Aliasing.read_tensor. rewrite Hcopy2, Hread2.
      reflexivity.
    + simpl. constructor; [|exact Hall]. split; [exact Hnew | eauto].
Qed.

(** Reading an object looks at its parts only. *)
Lemma read_agree (h h2 : gmap Aliasing.loc Aliasing.obj) (l : Aliasing.loc) :
  (forall x, In x (Aliasing.parts h l) -> h2 !! x = h !! x) ->
  Aliasing.read h2 l = Aliasing.read h l.
Proof.
  unfold Aliasing.parts, Aliasing.read. intros H.
  rewrite (H l) by (left; reflexivity).
  destruct (h !! l) as [[xs|fs]|] eqn:E; try reflexivity.
  assert (Hf : Aliasing.read_fields h2 fs = Aliasing.read_fields h fs).
  { assert (Hin : forall x, In x (map snd fs) -> h2 !! x = h !! x)
      by (intros x Hx; apply H; right; exact Hx).
    clear H E. induction fs as [|[k x] fs IH]; simpl; [reflexivity|].
    unfold Aliasing.read_tensor.
    rewrite (Hin x) by (left; reflexivity).
    rewrite IH by (intros y Hy; apply Hin; right; exact Hy). reflexivity. }
  rewrite Hf. reflexivity.
Qed.

Lemma deepcopy_ok (h : gmap Aliasing.loc Aliasing.obj) (data : Aliasing.loc)
      (v : Aliasing.value) :
  Aliasing.read h data = Some v ->
  exists l' h',
    Aliasing.deepcopy h data = Some (l', h') /\
    h ⊆ h' /\
    Aliasing.read h' l' = Some v /\
    forall x, In x (Aliasing.parts h' l') ->
              h !! x = None /\ is_Some (h' !! x).
Proof.
  unfold Aliasing.read, Aliasing.deepcopy. intros Hread.
  destruct (h !! data) as [[xs|fs]|] eqn:E; [| |discriminate].
  - injection Hread as <-.
    destruct (alloc_fresh h (Aliasing.Tensor xs)) as (Hf & Hget & Hext).
    do 2 eexists. split; [f_equal; apply surjective_pairing|].
    unfold Aliasing.alloc in *. simpl in *.
    split; [exact Hext|]. unfold Aliasing.parts. rewrite Hget.
    split; [reflexivity|]. intros x [<-|[]]. eauto.
  - destruct (Aliasing.read_fields h fs) as [vs|] eqn:Hfs; [|discriminate].
    injection Hread as <-.
    assert (Hinv : copying h (∅, h)).
    { split; [reflexivity|]. intros o n Hon. simpl in Hon.
      rewrite lookup_empty in Hon. discriminate. }
    destruct (copy_fields_ok h fs (∅, h) vs Hinv Hfs)
      as (fs' & st & -> & [Hsub _] & _ & Hread' & Hall).
    destruct (alloc_fresh st.2 (Aliasing.Dict fs')) as (Hf & Hget & Hext).
    do 2 eexists. split; [f_equal; apply surjective_pairing|].
    unfold Aliasing.alloc in *. simpl in *.
    split; [etransitivity; eassumption|].
    unfold Aliasing.parts. rewrite Hget.
    rewrite (read_fields_weaken _ _ _ _ Hext Hread').
    split; [reflexivity|].
    intros x [<-|Hx].
    + split; [|eauto].
      destruct (h !! fresh (dom st.2)) eqn:E';
        [|reflexivity].
      rewrite (lookup_weaken _ _ _ _ E' Hsub) in Hf. discriminate.
    + rewrite Forall_forall in Hall. apply list_elem_of_In in Hx.
      destruct (Hall x Hx) as [Hnew [o Ho]].
      split; [exact Hnew|]. exists o. eapply lookup_weaken; eassumption.
Qed.

Lemma read_weaken (h h' : gmap Aliasing.loc Aliasing.obj) l v :
  h ⊆ h' -> Aliasing.read h l = Some v -> Aliasing.read h' l = Some v.
Proof.
  intros Hsub. unfold Aliasing.read.
  destruct (h !! l) as [[xs|fs]|] eqn:E; try discriminate;
    rewrite (lookup_weaken _ _ _ _ E Hsub); [auto|].
  destruct (Aliasing.read_fields h fs) as [vs|] eqn:Hfs; [|discriminate].
  rewrite (read_fields_weaken _ _ _ _ Hsub Hfs). auto.
Qed.

(** C10: [update] changes no object that existed before the call.  With a
    non-empty queue it does nothing at all.  With an empty queue that has a
    free slot it puts a new object in the queue, at the end of the parent's
    buffer, that reads the same as [data] did at the call, is made of
    objects none of which existed before the call, and keeps reading the
    same whatever the caller does afterwards to the objects it can reach. *)
Theorem update_copies_its_argument (h : gmap Aliasing.loc Aliasing.obj)
        (q : Queue.t Aliasing.loc) (data : Aliasing.loc)
        (v : Aliasing.value) :
  Aliasing.read h data = Some v ->
  (Queue.empty q = false -> Aliasing.update data h q = Some (h, q)) /\
  (Queue.empty q = true -> Queue.full q = false ->
   exists l' h',
     Aliasing.update data h q =
       Some (h', Queue.Make (Queue.maxsize q) (S (Queue.acquired q))
                            (Queue.parent_buffer q ++ [l'])
                            (Queue.child_buffer q) (Queue.pipe q)) /\
     (forall l o, h !! l = Some o -> h' !! l = Some o) /\
     Aliasing.read h' data = Some v /\
     Aliasing.read h' l' = Some v /\
     (forall x, In x (Aliasing.parts h' l') -> h !! x = None) /\
     forall h2, Aliasing.caller_writes h h' h2 ->
                Aliasing.read h2 l' = Some v).
Proof.
  intros Hread. unfold Aliasing.update. split.
  - intros ->. reflexivity.
  - intros He Hfull. rewrite He.
    destruct (deepcopy_ok h data v Hread)
      as (l' & h' & -> & Hsub & Hread' & Hparts).
    exists l', h'.
    split.
    { unfold Queue.try_put. rewrite Hfull. reflexivity. }
    split; [intros l o Hl; eapply lookup_weaken; eassumption|].
    split; [eapply read_weaken; eassumption|].
    split; [exact Hread'|].
    split; [intros x Hx; apply Hparts, Hx|].
    intros h2 Hcw. rewrite <- Hread'. apply read_agree.
    intros x Hx. destruct (Hparts x Hx) as [Hnew Hsome].
    apply Hcw; [apply elem_of_dom, Hsome | apply not_elem_of_dom, Hnew].
Qed.

Lemma update_copies_its_argument_witness :
  exists l' h',
    Aliasing.update 1%positive heap_sample (Queue.create 1) =
      Some (h', Queue.Make 1 1 [l'] [] []) /\
    Aliasing.read h' l' = Aliasing.read heap_sample 1%positive /\
    Aliasing.read (<[2%positive := Aliasing.Tensor []]> h') l' =
      Aliasing.read heap_sample 1%positive.
Proof.
  destruct (update_copies_its_argument heap_sample (Queue.create 1)
              1%positive
              (Aliasing.VDict [("points"%string, [1%Q; 2%Q; 3%Q]);
                               ("predictions"%string, [1%Q]);
                               ("labels"%string, [1%Q])]))
    as [_ H].
  - vm_compute. reflexivity.
  - destruct (H eq_refl eq_refl) as (l' & h' & Hu & Hold & _ & Hr & _ & Hst).
    exists l', h'. split; [exact Hu|].
    assert (Hv : Aliasing.read heap_sample 1%positive =
                 Some (Aliasing.VDict [("points"%string, [1%Q; 2%Q; 3%Q]);
                                       ("predictions"%string, [1%Q]);
                                       ("labels"%string, [1%Q])]))
      by (vm_compute; reflexivity).
    rewrite Hv. split; [exact Hr|]. apply Hst.
    intros l Hin Hnot. apply lookup_insert_ne. intros <-.
    apply Hnot, elem_of_dom. vm_compute. eauto.
Defined.

(** * Further properties of the visualizer *)

(** ** [dispatch] *)

(** X1: a key press never draws and never fails.  Whatever the key, the
    snapshot last received, the scene and the number of redraws stay as they
    are and nothing is taken out of the queue; the queue grows, by the
    snapshot last received, which goes to the worker's buffer, only for the
    keys [c] and [g] and only when it has a free slot. *)
Theorem dispatch_never_draws (text : string) (w : worker)
        (q : Queue.t snapshot) :
  last_data (dispatch text w q).1 = last_data w /\
  scatter (dispatch text w q).1 = scatter w /\
  redraws (dispatch text w q).1 = redraws w /\
  Queue.maxsize (dispatch text w q).2 = Queue.maxsize q /\
  Queue.pipe (dispatch text w q).2 = Queue.pipe q /\
  ((dispatch text w q).2 = q \/
   exists d, last_data w = Some d /\ Queue.full q = false /\
             (text = "c"%string \/ text = "g"%string) /\
             Queue.try_put Child q d = Some (dispatch text w q).2 /\
             Queue.items (dispatch text w q).2 = Queue.items q ++ [d]).
Proof.
  unfold dispatch.
  destruct (String.eqb_spec text "c") as [->|Hc].
  - destruct (resend_frame (set_color_f (negb (color_f w)) w) q)
      as (-> & Hm & Hp & _ & [Hi|(d & Hd & Hf & Ht & Hi)]);
      simpl; repeat split; auto.
    right. exists d. auto 10.
  - destruct (String.eqb_spec text "g") as [->|Hg].
    + destruct (resend_frame (set_gt_f (negb (gt_f w)) w) q)
        as (-> & Hm & Hp & _ & [Hi|(d & Hd & Hf & Ht & Hi)]);
        simpl; repeat split; auto.
      right. exists d. auto 10.
    + destruct (String.eqb_spec text "r") as [->|Hr]; simpl.
      * destruct (negb (ref_f w)); simpl; repeat split; auto.
      * repeat split; auto.
Qed.

Lemma draw_keeps_widths thr d w :
  widths_follow_ref_f w -> widths_follow_ref_f (draw thr d w).
Proof.
  unfold widths_follow_ref_f.
  destruct (draw_frame thr d w) as (_ & _ & -> & _ & -> & ->). auto.
Qed.

Lemma on_timer_keeps_widths thr w q :
  widths_follow_ref_f w -> widths_follow_ref_f (on_timer thr w q).1.
Proof.
  intros H. unfold on_timer.
  destruct (negb (Queue.empty q)); [|exact H].
  destruct (Queue.try_get q) as [[d q']|]; [|exact H].
  simpl. apply draw_keeps_widths. exact H.
Qed.

Lemma dispatch_keeps_widths text w q :
  widths_follow_ref_f w -> widths_follow_ref_f (dispatch text w q).1.
Proof.
  intros H. unfold dispatch.
  destruct (String.eqb text "c");
    [destruct (resend_frame (set_color_f (negb (color_f w)) w) q) as [-> _];
     exact H|].
  destruct (String.eqb text "g");
    [destruct (resend_frame (set_gt_f (negb (gt_f w)) w) q) as [-> _];
     exact H|].
  destruct (String.eqb text "r"); [|exact H].
  unfold widths_follow_ref_f. simpl.
  destruct (ref_f w); simpl; auto.
Qed.

(** X2: in every state the visualizer can reach, the cube and the axes have
    the same line width, and it is 10 when [ref_f] is set and 0 when it is
    not: the key [r] is the only thing that changes either of them, and it
    changes them together. *)
Theorem widths_follow_ref_flag thr (tr : list action) (s : state) :
  exec thr tr init = Some s ->
  cube_width (wobj s) = ref_width (wobj s) /\
  cube_width (wobj s) = (if ref_f (wobj s) then 10 else 0)%Z.
Proof.
  intros H.
  apply (exec_invariant thr (fun s => widths_follow_ref_f (wobj s)))
    with (tr := tr) (s := init); [|split; reflexivity|exact H].
  clear. intros a s s' Hs Hstep.
  destruct a; simpl in Hstep;
    unfold update_enter, stop, update_step, run_step, in_loop, feed_step
      in Hstep;
    inv_some; simpl; auto.
  - apply on_timer_keeps_widths, Hs.
  - apply dispatch_keeps_widths, Hs.
Qed.

Lemma widths_follow_ref_flag_witness :
  exists s,
    exec thr_sample (delivered snap_a ++ [Key "r"; Key "c"]) init =
      Some s /\
    cube_width (wobj s) = 0%Z /\ ref_width (wobj s) = 0%Z.
Proof.
  eexists. split.
  - vm_compute; reflexivity.
  - destruct (widths_follow_ref_flag thr_sample
                (delivered snap_a ++ [Key "r"; Key "c"]) _
                ltac:(vm_compute; reflexivity)) as [H1 H2].
    split; [exact H2 | rewrite <- H1; exact H2].
Defined.

(** ** A key press followed by a tick *)


Lemma on_timer_empty thr (w : worker) (q : Queue.t snapshot) :
  Queue.pipe q = [] -> on_timer thr w q = (w, q).
Proof.
  intros H. unfold on_timer, Queue.empty. rewrite H. reflexivity.
Qed.

Lemma on_timer_get thr (w : worker) (q : Queue.t snapshot) (x : snapshot)
      (rest : list snapshot) :
  Queue.pipe q = x :: rest ->
  on_timer thr w q =
  (draw thr x (set_last_data x w),
   Queue.Make (Queue.maxsize q) (pred (Queue.acquired q))
              (Queue.parent_buffer q) (Queue.child_buffer q) rest).
Proof.
  intros H. unfold on_timer, Queue.empty, Queue.try_get. rewrite H.
  reflexivity.
Qed.





(** ** Where snapshots come from *)

Lemma try_put_items_In {A} (p : party) (q q' : Queue.t A) (x d : A) :
  Queue.try_put p q x = Some q' ->
  In d (Queue.items q') -> In d (Queue.items q) \/ d = x.
Proof.
  unfold Queue.try_put, Queue.items.
  destruct (Queue.full q); [discriminate|]. intros [= <-].
  destruct q as [m n pb cb pp], p; simpl;
    rewrite !in_app_iff; simpl; intuition (subst; auto).
Qed.

Lemma feed_items_In {A} (p : party) (q q' : Queue.t A) (d : A) :
  Queue.feed p q = Some q' ->
  In d (Queue.items q') -> In d (Queue.items q).
Proof.
  unfold Queue.feed, Queue.items.
  destruct q as [m n pb cb pp], p; simpl;
    [destruct pb as [|y pb] | destruct cb as [|y cb]];
    try discriminate; intros [= <-]; simpl;
    rewrite ?in_app_iff; simpl; rewrite ?in_app_iff; simpl; tauto.
Qed.

Lemma on_timer_held thr (w : worker) (q : Queue.t snapshot) (d : snapshot) :
  In d (Queue.items (on_timer thr w q).2) \/
  last_data (on_timer thr w q).1 = Some d ->
  In d (Queue.items q) \/ last_data w = Some d.
Proof.
  destruct (Queue.pipe q) as [|x rest] eqn:E.
  - rewrite (on_timer_empty thr w q E). auto.
  - rewrite (on_timer_get thr w q x rest E). unfold Queue.items.
    rewrite E. simpl.
    destruct (draw_frame thr x (set_last_data x w)) as (_ & _ & _ & -> & _).
    simpl. intros [H|[= <-]]; auto.
Qed.

Lemma dispatch_held (text : string) (w : worker) (q : Queue.t snapshot)
      (d : snapshot) :
  In d (Queue.items (dispatch text w q).2) \/
  last_data (dispatch text w q).1 = Some d ->
  In d (Queue.items q) \/ last_data w = Some d.
Proof.
  destruct (dispatch_never_draws_aux text w q)
    as (-> & [->|(x & Hx & _ & ->)]); [tauto|].
  rewrite in_app_iff. simpl. intros [[H|[<-|[]]]|H]; auto.
Qed.

Lemma held_step thr (a : action) (s s' : state) (d : snapshot) :
  step thr a s = Some s' -> held s' d -> held s d \/ a = Update d.
Proof.
  unfold held. intros Hstep.
  destruct a; simpl in Hstep;
    unfold update_enter, stop, update_step, run_step, in_loop, feed_step
      in Hstep;
    inv_some; simpl;
    try match goal with E : ppc s = _ |- _ => rewrite E end;
    unfold deepcopy; try solve [intuition (subst; auto)].
  - match goal with E : Queue.try_put _ _ _ = Some _ |- _ =>
      pose proof (try_put_items_In _ _ _ _ d E) as Hput end.
    intuition (subst; auto).
  - intros [H|[H|H]]; left; [| |auto];
      destruct (on_timer_held thr (wobj s) (queue_in s) d); auto.
  - intros [H|[H|H]]; left; [| |auto];
      destruct (dispatch_held text (wobj s) (queue_in s) d); auto.
  - match goal with E : Queue.feed _ _ = Some _ |- _ =>
      pose proof (feed_items_In _ _ _ d E) as Hfeed end.
    intuition (subst; auto).
Qed.

(** X5: the visualizer only ever shows what it was given.  After any
    schedule, every snapshot that sits in the queue, that the worker holds
    as [last_data], or that a running [update] carries, was the argument of
    an [update] call of that schedule. *)
Theorem snapshots_come_from_update thr (tr : list action) (s : state)
        (d : snapshot) :
  exec thr tr init = Some s -> held s d -> In (Update d) tr.
Proof.
  assert (H : forall tr s0 s, exec thr tr s0 = Some s -> held s d ->
                              held s0 d \/ In (Update d) tr).
  { clear. induction tr as [|a tr IH]; intros s0 s Hrun Hheld; simpl in *.
    - injection Hrun as ->. auto.
    - destruct (step thr a s0) as [s1|] eqn:E; [|discriminate].
      destruct (IH s1 s Hrun Hheld) as [H1|H1]; [|auto].
      destruct (held_step thr a s0 s1 d E H1) as [H0 | ->]; auto. }
  intros Hrun Hheld. destruct (H tr init s Hrun Hheld) as [H0|H0];
    [|exact H0].
  unfold held in H0. simpl in H0. destruct H0 as [[]|[H0|[]]]. discriminate.
Qed.

Lemma snapshots_come_from_update_witness :
  In (Update snap_a) (delivered snap_a ++ [Update snap_b; PStep]).
Proof.
  destruct (exec thr_sample (delivered snap_a ++ [Update snap_b; PStep])
              init) as [s|] eqn:E; [|vm_compute in E; discriminate].
  apply (snapshots_come_from_update thr_sample _ s snap_a E).
  right. left. vm_compute in E. injection E as <-. reflexivity.
Defined.

(** ** The scene *)

Lemma draw_scene_ok thr (d : snapshot) (w : worker) :
  scene_ok w -> scene_ok (draw thr d w).
Proof.
  unfold scene_ok, draw. intros H.
  destruct (cloud thr w d) as [|p ps]; [exact H|]. simpl.
  split; [split; discriminate|].
  intros pc cols [= <- _]. discriminate.
Qed.

Lemma on_timer_scene_ok thr w q : scene_ok w -> scene_ok (on_timer thr w q).1.
Proof.
  intros H. unfold on_timer.
  destruct (negb (Queue.empty q)); [|exact H].
  destruct (Queue.try_get q) as [[d q']|]; [|exact H].
  simpl. apply draw_scene_ok. exact H.
Qed.

Lemma dispatch_scene_ok text w q :
  scene_ok w -> scene_ok (dispatch text w q).1.
Proof.
  unfold scene_ok. intros H. unfold dispatch.
  repeat match goal with
    | |- context [String.eqb text ?k] => destruct (String.eqb text k)
    end;
    try match goal with
      | |- context [resend ?w' q] =>
          destruct (resend_frame w' q) as (-> & _); exact H
      end.
  - simpl. destruct (negb (ref_f w)); exact H.
  - exact H.
Qed.

(** X6: the scene is never set to an empty point cloud.  In every state the
    visualizer can reach, [scatter.set_data] has been called if and only if
    the scene holds a cloud, and that cloud has at least one point. *)
Theorem scene_never_empty thr (tr : list action) (s : state) :
  exec thr tr init = Some s ->
  (scatter (wobj s) = None <-> redraws (wobj s) = 0%nat) /\
  forall pc cols, scatter (wobj s) = Some (pc, cols) -> pc <> [].
Proof.
  intros H.
  apply (exec_invariant thr (fun s => scene_ok (wobj s)))
    with (tr := tr) (s := init); [| |exact H].
  - clear. intros a s s' Hs Hstep.
    destruct a; simpl in Hstep;
      unfold update_enter, stop, update_step, run_step, in_loop, feed_step
        in Hstep;
      inv_some; simpl; auto.
    + apply on_timer_scene_ok, Hs.
    + apply dispatch_scene_ok, Hs.
  - split; [split; reflexivity | discriminate].
Qed.

Lemma scene_never_empty_witness :
  exists s,
    exec thr_sample (delivered snap_c) init = Some s /\
    last_data (wobj s) = Some snap_c /\
    (scatter (wobj s) = None <-> redraws (wobj s) = 0%nat).
Proof.
  eexists. split; [vm_compute; reflexivity|].
  split; [reflexivity|].
  eapply (scene_never_empty thr_sample (delivered snap_c)).
  vm_compute; reflexivity.
Defined.

(** ** From [update] to the worker *)



(** X8: the wait of line 135 ends.  When the parent stands before the [put]
    of line 135 and the worker is in its event loop, the [put] goes through
    at once, or after one timer tick, or after one step of a feeder thread
    and one timer tick, according to where the snapshot that holds the slot
    is: nowhere, in the pipe, or in a buffer.  [update] then returns, and
    its snapshot is the one in the queue. *)
Theorem tick_releases_waiting_update thr (tr : list action) (s : state)
        (d : snapshot) :
  exec thr tr init = Some s ->
  ppc s = PPut d -> wpc s = WLoop ->
  exists tr' s',
    (tr' = [] \/ tr' = [Tick] \/ exists p, tr' = [Feed p; Tick]) /\
    exec thr (tr' ++ [PStep]) s = Some s' /\
    ppc s' = PIdle /\ Queue.items (queue_in s') = [d].
Proof.
  intros Hreach Hpc Hw.
  destruct (queue_ok_reachable _ _ _ Hreach) as (Hm & Hb & Hc).
  unfold bounded, counted, Queue.items in *. rewrite Hm in Hb.
  destruct s as [f pc qt wp w b [m n pb cb pp] l]. simpl in *. subst.
  destruct pp as [|x [|? pp]], pb as [|y [|? pb]], cb as [|z [|? cb]];
    simpl in Hb; rewrite ?length_app in Hb; simpl in Hb; try lia.
  - exists []. eexists. split; [auto|]. split; [reflexivity|].
    split; reflexivity.
  - exists [Feed Child; Tick]. eexists. split; [eauto|].
    split; [reflexivity|]. split; reflexivity.
  - exists [Feed Parent; Tick]. eexists. split; [eauto|].
    split; [reflexivity|]. split; reflexivity.
  - exists [Tick]. eexists. split; [auto|]. split; [reflexivity|].
    split; reflexivity.
Qed.

Lemma tick_releases_waiting_update_witness :
  exists s tr' s',
    exec thr_sample race init = Some s /\
    step thr_sample PStep s = None /\
    exec thr_sample (tr' ++ [PStep]) s = Some s' /\
    Queue.items (queue_in s') = [snap_b].
Proof.
  destruct (exec thr_sample race init) as [s|] eqn:E;
    [|vm_compute in E; discriminate].
  destruct (tick_releases_waiting_update thr_sample race s snap_b E)
    as (tr' & s' & _ & H1 & _ & H2);
    try (vm_compute in E; injection E as <-; reflexivity).
  exists s, tr', s'. split; [reflexivity|].
  split; [vm_compute in E; injection E as <-; reflexivity|].
  split; assumption.
Defined.

(** X16: two calls in a row.  In every state reached after set-up with the
    parent idle and the queue holding nothing, [update(d1)] returns with
    [d1] in the parent's buffer.  If [update(d2)] is called before the
    feeder thread has sent [d1], its [empty()] test of line 134 sees
    nothing, and the call stands before the [put] of line 135 with the slot
    taken: it does not return as long as nothing else happens. *)
Theorem second_update_waits thr (tr : list action) (s : state)
        (d1 d2 : snapshot) :
  exec thr tr init = Some s ->
  ppc s = PIdle -> setup_f s = true ->
  Queue.items (queue_in s) = [] ->
  exists s1 s2,
    update d1 s = Some s1 /\
    ppc s1 = PIdle /\
    Queue.parent_buffer (queue_in s1) = [d1] /\
    Queue.empty (queue_in s1) = true /\
    exec thr [Update d2; PStep] s1 = Some s2 /\
    ppc s2 = PPut d2 /\
    Queue.items (queue_in s2) = [d1] /\
    step thr PStep s2 = None /\
    update d2 s1 = None.
Proof.
  intros Hreach Hpc Hf Hq.
  pose proof (queue_ok_reachable _ _ _ Hreach) as Hok.
  destruct (no_item_free s Hok Hq) as (Hfull & Hempty & _).
  rewrite (update_after_setup d1 s Hpc Hf), Hempty.
  unfold Queue.try_put. rewrite Hfull.
  destruct Hok as (Hm & _ & Hc). unfold counted in Hc. rewrite Hq in Hc.
  destruct s as [f pc qt wp w b [m n pb cb pp] l].
  unfold Queue.items in Hq. simpl in *. subst.
  apply app_eq_nil in Hq as [-> Hq]. apply app_eq_nil in Hq as [-> ->].
  do 2 eexists. split; [reflexivity|]. simpl.
  repeat (split; [reflexivity|]). reflexivity.
Qed.

Lemma second_update_waits_witness :
  exists s s1 s2,
    exec thr_sample (delivered snap_a) init = Some s /\
    update snap_b s = Some s1 /\
    exec thr_sample [Update snap_c; PStep] s1 = Some s2 /\
    step thr_sample PStep s2 = None.
Proof.
  destruct (exec thr_sample (delivered snap_a) init) as [s|] eqn:E;
    [|vm_compute in E; discriminate].
  destruct (second_update_waits thr_sample _ s snap_b snap_c E)
    as (s1 & s2 & H1 & _ & _ & _ & H2 & _ & _ & H3 & _);
    try (vm_compute in E; injection E as <-; reflexivity).
  exists s, s1, s2. repeat split; assumption.
Defined.



(** ** The cloud and its colours *)

Lemma mask_select_In {A} (xs : list A) (mask : list bool) (x : A) :
  In x (mask_select xs mask) -> In x xs.
Proof.
  revert mask. induction xs as [|y xs IH]; intros [|b mask]; simpl;
    try tauto.
  destruct b; simpl; intros H; [destruct H as [H|H]|]; eauto.
Qed.

Lemma mask_select_no_mask {A} (xs : list A) : mask_select xs [] = [].
Proof. destruct xs; reflexivity. Qed.

Lemma mask_and_nil_r (a : list bool) : mask_and a [] = [].
Proof. destruct a; reflexivity. Qed.

Lemma mask_select_le {A} (xs : list A) (mask : list bool) :
  (length (mask_select xs mask) <= length xs)%nat.
Proof.
  revert mask. induction xs as [|x xs IH]; intros [|b mask]; simpl;
    try lia.
  specialize (IH mask). destruct b; simpl; lia.
Qed.

Lemma disjoint_masks_length {A} (xs : list A) (ls m : list bool) :
  (length (mask_select xs m) +
   length (mask_select xs (mask_and ls (mask_not m))) <= length xs)%nat.
Proof.
  revert ls m. induction xs as [|x xs IH]; intros ls m.
  - simpl. lia.
  - destruct m as [|b m].
    + unfold mask_not. simpl map.
      rewrite mask_and_nil_r, !mask_select_no_mask. simpl. lia.
    + destruct ls as [|l ls].
      * simpl mask_and. rewrite mask_select_no_mask.
        pose proof (mask_select_le (x :: xs) (b :: m)). simpl in *. lia.
      * specialize (IH ls m). unfold mask_not in *. simpl.
        destruct b, l; simpl; lia.
Qed.

(** X10: no point is drawn twice and nothing is drawn that was not in the
    snapshot.  The cloud of a well-shaped snapshot consists of its predicted
    points followed, when [gt_f] is set, by its missed points; every point of
    the cloud is a point of the snapshot, and the cloud has at most as many
    points as the snapshot. *)
Theorem cloud_within_snapshot thr (w : worker) (d : snapshot) :
  wf_snapshot d ->
  length (cloud thr w d) =
    (length (positive thr d) +
     (if gt_f w then length (false_negative thr d) else 0))%nat /\
  (length (cloud thr w d) <= length (points d))%nat /\
  forall p, In p (cloud thr w d) -> In p (points d).
Proof.
  intros _. unfold cloud, positive, false_negative, false_negative_idxs.
  pose proof (disjoint_masks_length (points d) (labels d)
                (positive_idxs thr d)) as H.
  destruct (gt_f w).
  - rewrite length_app. split; [reflexivity|]. split; [exact H|].
    intros p Hp. apply in_app_iff in Hp as [Hp|Hp];
      eapply mask_select_In; exact Hp.
  - split; [lia|]. split; [lia|]. intros p Hp. eapply mask_select_In, Hp.
Qed.

Lemma cloud_within_snapshot_witness :
  (length (cloud thr_sample worker_init snap_b) <= 1)%nat.
Proof.
  apply (cloud_within_snapshot thr_sample worker_init snap_b).
  split; reflexivity.
Defined.

Lemma mask_select_combine {A B} (xs : list A) (ys : list B)
      (mask : list bool) :
  mask_select (combine xs ys) mask =
  combine (mask_select xs mask) (mask_select ys mask).
Proof.
  revert ys mask. induction xs as [|x xs IH]; intros ys mask.
  - reflexivity.
  - destruct ys as [|y ys].
    + simpl combine at 1. simpl mask_select at 1 3.
      destruct (mask_select (x :: xs) mask); reflexivity.
    + destruct mask as [|b mask]; [reflexivity|].
      simpl. destruct b; simpl; rewrite IH; reflexivity.
Qed.

Lemma mask_select_map {A B} (f : A -> B) (xs : list A) (mask : list bool) :
  mask_select (map f xs) mask = map f (mask_select xs mask).
Proof.
  revert mask. induction xs as [|x xs IH]; intros [|b mask]; simpl;
    try reflexivity.
  destruct b; simpl; rewrite IH; reflexivity.
Qed.

Lemma combine_app_same {A B} (a1 a2 : list A) (b1 b2 : list B) :
  length a1 = length b1 ->
  combine (a1 ++ a2) (b1 ++ b2) = combine a1 b1 ++ combine a2 b2.
Proof.
  revert b1. induction a1 as [|x a1 IH]; intros [|y b1] H; simpl in *;
    try discriminate; [reflexivity|].
  injection H as H. rewrite IH by exact H. reflexivity.
Qed.

Lemma combine_repeat {A B} (xs : list A) (c : B) :
  combine xs (repeat c (length xs)) = map (fun x => (x, c)) xs.
Proof. induction xs as [|x xs IH]; simpl; [|rewrite IH]; reflexivity. Qed.

Lemma map_const_repeat {A B} (c : B) (xs : list A) :
  map (fun _ => c) xs = repeat c (length xs).
Proof. induction xs as [|x xs IH]; simpl; [|rewrite IH]; reflexivity. Qed.

Lemma p_colors_colour_of thr (w : worker) (d : snapshot) :
  wf_snapshot d ->
  p_colors thr w d =
  map (colour_of w) (mask_select (labels d) (positive_idxs thr d)).
Proof.
  intros [_ Hl]. unfold p_colors, colour_of, positive.
  destruct (color_f w); [reflexivity|].
  rewrite map_const_repeat.
  rewrite (mask_select_length (points d) (labels d) _ (eq_sym Hl)).
  reflexivity.
Qed.

(** X11: colours stay with their points.  For a well-shaped snapshot the
    pairs of drawn point and colour are: every predicted point with the
    colour of its own label (green on the shape, red off it, or blue when
    [color_f] is off), followed, when [gt_f] is set, by every missed point in
    yellow. *)
Theorem colours_follow_points thr (w : worker) (d : snapshot) :
  wf_snapshot d ->
  combine (cloud thr w d) (colors thr w d) =
  mask_select (combine (points d) (map (colour_of w) (labels d)))
              (positive_idxs thr d) ++
  (if gt_f w then map (fun p => (p, yellow)) (false_negative thr d) else []).
Proof.
  intros Hwf. pose proof Hwf as [_ Hl].
  assert (Hpos : combine (positive thr d) (p_colors thr w d) =
                 mask_select (combine (points d) (map (colour_of w) (labels d)))
                             (positive_idxs thr d)).
  { rewrite (p_colors_colour_of thr w d Hwf), mask_select_combine,
      mask_select_map. reflexivity. }
  assert (Hlen : length (positive thr d) = length (p_colors thr w d)).
  { rewrite (p_colors_colour_of thr w d Hwf), length_map. unfold positive.
    apply mask_select_length. symmetry. exact Hl. }
  unfold cloud, colors. destruct (gt_f w).
  - rewrite combine_app_same by exact Hlen.
    rewrite Hpos, combine_repeat. reflexivity.
  - rewrite Hpos, app_nil_r. reflexivity.
Qed.

Lemma colours_follow_points_witness :
  combine (cloud thr_sample worker_init snap_b)
          (colors thr_sample worker_init snap_b) =
  [((4, 5, 6)%Q, yellow)].
Proof.
  rewrite (colours_follow_points thr_sample worker_init snap_b).
  - reflexivity.
  - split; reflexivity.
Defined.

(** ** The wire cube of [build_gui] *)

Lemma below_8 (P : nat -> Prop) :
  P 0%nat -> P 1%nat -> P 2%nat -> P 3%nat -> P 4%nat -> P 5%nat ->
  P 6%nat -> P 7%nat -> forall i, (i < 8)%nat -> P i.
Proof.
  intros H0 H1 H2 H3 H4 H5 H6 H7 i Hi.
  do 8 (destruct i as [|i]; [assumption|]). lia.
Qed.

(** X12: the twelve index pairs handed to [scene.Line] are exactly the edges
    of the cube.  There are 8 vertices and 12 pairs, no pair occurs twice,
    and two vertices [i < j] are connected if and only if they differ in
    exactly one coordinate. *)
Theorem cube_edges_are_the_cube (i j : nat) :
  (i < j)%nat -> (j < 8)%nat ->
  length cube_vertices = 8%nat /\ length cube_edges = 12%nat /\
  NoDup cube_edges /\
  (In (i, j) cube_edges <->
   exists u v, cube_vertices !! i = Some u /\ cube_vertices !! j = Some v /\
               differing u v = 1%nat).
Proof.
  intros Hij Hj.
  split; [reflexivity|]. split; [reflexivity|].
  split.
  { apply NoDup_ListNoDup. vm_compute.
    repeat (constructor; [simpl; intuition discriminate|]). constructor. }
  revert i Hij. pattern j. apply below_8; [..|exact Hj]; intros i Hij;
    (assert (Hi : (i < 8)%nat) by lia);
    revert Hij; pattern i; (apply below_8; [..|exact Hi]); intros Hij;
    try lia;
    (split;
     [ intros Hin; vm_compute in Hin;
       first [ (do 2 eexists; split; [reflexivity|]; split; [reflexivity|];
                reflexivity)
             | (exfalso; intuition discriminate) ]
     | intros (u & v & Hu & Hv & Hd);
       vm_compute in Hu; vm_compute in Hv;
       injection Hu as <-; injection Hv as <-;
       first [ (vm_compute; tauto)
             | (vm_compute in Hd; discriminate) ] ]).
Qed.

Lemma cube_edges_are_the_cube_witness :
  In (2, 6)%nat cube_edges /\ ~ In (1, 6)%nat cube_edges.
Proof.
  split.
  - apply (cube_edges_are_the_cube 2 6); [lia | lia |].
    do 2 eexists. split; [reflexivity|]. split; [reflexivity|]. reflexivity.
  - intros H. apply (cube_edges_are_the_cube 1 6) in H; [|lia|lia].
    destruct H as (u & v & Hu & Hv & Hd).
    vm_compute in Hu. vm_compute in Hv.
    injection Hu as <-. injection Hv as <-. vm_compute in Hd. discriminate.
Defined.

(** * Further properties of the training loop *)

Lemma div_succ (b n : nat) :
  (0 < b ->
   S n / b = n / b + (if S n mod b =? 0 then 1 else 0))%nat.
Proof.
  intros Hb.
  pose proof (Nat.div_mod_eq n b) as Hn.
  pose proof (Nat.mod_upper_bound n b ltac:(lia)) as Hr.
  set (q := (n / b)%nat) in *. set (r := (n mod b)%nat) in *.
  destruct (Nat.eq_dec (S r) b) as [E|E].
  - assert (H1 : S n = (b * (q + 1) + 0)%nat) by nia.
    rewrite <- (Nat.div_unique (S n) b (q + 1) 0 Hb H1).
    rewrite <- (Nat.mod_unique (S n) b (q + 1) 0 Hb H1). reflexivity.
  - assert (H1 : S n = (b * q + S r)%nat) by lia.
    assert (Hlt : (S r < b)%nat) by lia.
    rewrite <- (Nat.div_unique (S n) b q (S r) Hlt H1).
    rewrite <- (Nat.mod_unique (S n) b q (S r) Hlt H1). simpl. lia.
Qed.

Lemma div_succ_1000 (n : nat) :
  (S n / 1000 = n / 1000 + (if Overfit.log_due n then 1 else 0))%nat.
Proof.
  unfold Overfit.log_due. rewrite Nat.add_1_r.
  apply div_succ. apply Nat.lt_0_succ.
Qed.

Lemma div_succ_5000 (n : nat) :
  (S n / 5000 = n / 5000 + (if Overfit.checkpoint_due n then 1 else 0))%nat.
Proof.
  unfold Overfit.checkpoint_due. rewrite Nat.add_1_r.
  apply div_succ. apply Nat.lt_0_succ.
Qed.

Lemma log_due_gap (i n : nat) :
  Overfit.log_due i = true -> Overfit.log_due n = false ->
  (n <= i + 1000)%nat -> (S n <= i + 1000)%nat.
Proof.
  intros Hi Hn Hle.
  destruct (Nat.eq_dec n (i + 1000)) as [->|Hne]; [|lia].
  exfalso. apply log_due_spec in Hi.
  assert (Hn' : Overfit.log_due (i + 1000) = true).
  { apply log_due_spec.
    replace (i + 1000 + 1)%nat with (i + 1 + 1 * 1000)%nat by lia.
    rewrite Nat.Div0.mod_add. exact Hi. }
  congruence.
Qed.

Lemma log_due_first (n : nat) :
  Overfit.log_due n = false -> (n < 1000)%nat -> (S n < 1000)%nat.
Proof.
  intros Hn Hlt.
  destruct (Nat.eq_dec n 999) as [->|Hne]; [|lia].
  exfalso.
  assert (H : Overfit.log_due 999 = true) by (vm_compute; reflexivity).
  congruence.
Qed.

Lemma checkpoint_due_small (i : nat) :
  Overfit.checkpoint_due i = true -> (4999 <= i)%nat.
Proof.
  intros H. apply checkpoint_due_spec in H.
  destruct (Nat.lt_ge_cases i 4999) as [Hlt|Hge]; [|exact Hge].
  rewrite Nat.mod_small in H by lia. lia.
Qed.

Lemma count_events_snoc (f : Overfit.event -> bool)
      (tr : list (list Overfit.event)) (evs : list Overfit.event) :
  count_events f (tr ++ [evs]) =
  (count_events f tr + length (List.filter f evs))%nat.
Proof.
  unfold count_events, all_events.
  rewrite concat_app, List.filter_app, length_app. simpl.
  rewrite app_nil_r. reflexivity.
Qed.

Section MoreLoopProperties.

Variables loss chamfer decoded : nat -> Q.

(** X13: the loop never reads [chamfer_real] before it is bound.  For every
    number of epochs and whatever the model and the metric return, all
    iterations run (line 133 raises no [NameError]); afterwards
    [chamfer_real] is unbound if fewer than 1000 iterations ran, and
    otherwise holds the metric value of the last iteration [i] whose number
    [i + 1] is a multiple of 1000. *)
Theorem loop_never_reads_unbound (epochs : nat) :
  exists tr v,
    Overfit.main loss chamfer decoded epochs = Some (tr, v) /\
    length tr = epochs /\
    (((epochs < 1000)%nat /\ Overfit.chamfer_real v = None) \/
     exists i, (i < epochs)%nat /\ (epochs <= i + 1000)%nat /\
               ((i + 1) mod 1000 = 0)%nat /\
               Overfit.chamfer_real v = Some (chamfer i)).
Proof.
  unfold Overfit.main.
  induction epochs as [|n (tr0 & v0 & Hrun & _ & Hcr)].
  - exists [], Overfit.vars_init.
    split; [reflexivity|]. split; [reflexivity|].
    left. split; [apply Nat.lt_0_succ | reflexivity].
  - destruct (iterations_S loss chamfer decoded n)
      as (tr & v & evs & v' & Hn & Hlen & Hbody & HS & _).
    rewrite Hrun in Hn. injection Hn as <- <-.
    exists (tr0 ++ [evs]), v'. split; [exact HS|].
    split; [rewrite length_app, Hlen; simpl; lia|].
    assert (Hnew : Overfit.log_due n = true ->
                   Overfit.chamfer_real v' = Some (chamfer n)).
    { intros Hd.
      destruct (body_cases loss chamfer decoded n v0)
        as [(H1 & _ & Hb)|[(H1 & _ & Hb)|[(H1 & _ & _ & Hb)|(H1 & _ & _ & Hb)]]];
        rewrite Hb in Hbody; injection Hbody as <- <-;
        [congruence|reflexivity|reflexivity|reflexivity]. }
    assert (Hold : Overfit.log_due n = false -> v' = v0).
    { intros Hd.
      destruct (body_cases loss chamfer decoded n v0)
        as [(H1 & _ & Hb)|[(H1 & _ & Hb)|[(H1 & _ & _ & Hb)|(H1 & _ & _ & Hb)]]];
        rewrite Hb in Hbody; injection Hbody as <- <-;
        [reflexivity|congruence|congruence|congruence]. }
    destruct (Overfit.log_due n) eqn:Hd.
    + right. exists n. split; [lia|]. split; [lia|].
      split; [apply log_due_spec, Hd | apply Hnew; reflexivity].
    + rewrite (Hold eq_refl).
      destruct Hcr as [[Hlt Hnone]|(i & Hi & Hle & Hmod & Hsome)].
      * left. split; [apply log_due_first; assumption | exact Hnone].
      * right. exists i. split; [lia|].
        split; [apply log_due_gap; [apply log_due_spec|..]; assumption|].
        split; assumption.
Qed.

(** X14: how many checkpoints and reports a run leaves.  A run of [epochs]
    iterations writes [latest.pth] and reports the scalar [Chamfer/real]
    [epochs / 5000] times each, and reports each of the scalars [Loss/loss]
    and [Chamfer/chamfer] [epochs / 1000] times. *)
Theorem checkpoints_and_reports_counted (epochs : nat) :
  exists tr v,
    Overfit.main loss chamfer decoded epochs = Some (tr, v) /\
    count_events (is_save "latest.pth") tr = (epochs / 5000)%nat /\
    count_events (is_scalar "Chamfer" "real") tr = (epochs / 5000)%nat /\
    count_events (is_scalar "Loss" "loss") tr = (epochs / 1000)%nat /\
    count_events (is_scalar "Chamfer" "chamfer") tr = (epochs / 1000)%nat.
Proof.
  unfold Overfit.main.
  induction epochs as [|n (tr0 & v0 & Hrun & H1 & H2 & H3 & H4)].
  - exists [], Overfit.vars_init. repeat split.
  - destruct (iterations_S loss chamfer decoded n)
      as (tr & v & evs & v' & Hn & _ & Hbody & HS & _).
    rewrite Hrun in Hn. injection Hn as <- <-.
    exists (tr0 ++ [evs]), v'. split; [exact HS|].
    rewrite !count_events_snoc, H1, H2, H3, H4.
    rewrite div_succ_5000, div_succ_1000.
    destruct (body_cases loss chamfer decoded n v0)
      as [(L & C & Hb)|[(L & C & Hb)|[(L & C & _ & Hb)|(L & C & _ & Hb)]]];
      rewrite Hb in Hbody; injection Hbody as <- <-; rewrite L, C;
      (split; [|split; [|split]]);
      apply (f_equal (Nat.add _)); reflexivity.
Qed.

(** The first checkpoint step writes both files. *)
Lemma first_checkpoint_saves_best (k epochs : nat) tr v :
  Overfit.iterations loss chamfer decoded epochs = Some (tr, v) ->
  (k < epochs)%nat -> Overfit.checkpoint_due k = true ->
  (forall j, (j < k)%nat -> Overfit.checkpoint_due j = false) ->
  In (Overfit.Save "latest.pth") (all_events tr) /\
  In (Overfit.Save "best.pth") (all_events tr).
Proof.
  intros Hrun Hlt Hdue Hfirst.
  destruct (iterations_lookup loss chamfer decoded epochs k tr v Hrun Hlt)
    as (tri & vi & evs & v' & Hi & Hbody & Hlook).
  assert (Hinf : Overfit.best vi = Overfit.Inf).
  { destruct (best_after_minimum loss chamfer decoded k)
      as [_ [[Hinf _]|(j & Hj & Hc & _)]].
    - unfold Overfit.best_after in Hinf. rewrite Hi in Hinf. exact Hinf.
    - rewrite (Hfirst j Hj) in Hc. discriminate. }
  assert (Hin : forall e, In e evs -> In e (all_events tr)).
  { intros e He. unfold all_events. apply in_concat. exists evs.
    split; [|exact He].
    apply list_elem_of_In, list_elem_of_lookup_2 with (i := k).
    exact Hlook. }
  destruct (body_cases loss chamfer decoded k vi)
    as [(_ & C & Hb)|[(_ & C & Hb)|[(_ & C & G & Hb)|(_ & C & G & Hb)]]];
    try (rewrite C in Hdue; discriminate Hdue);
    try (rewrite Hinf in G; discriminate G).
  rewrite Hb in Hbody. injection Hbody as <- _.
  split; apply Hin; simpl; auto 20.
Qed.

(** X15: which files a run leaves.  A run of fewer than 5000 iterations
    saves nothing.  A run of 5000 iterations or more has written
    [latest.pth]; and since [best] is still [np.inf] at the first checkpoint
    step, it has written [best.pth] as well whenever the metric value of
    that step is a number.  Metric values are rationals here: a value that
    is NaN or infinite, for which the comparison of line 133 is false, is
    outside this statement. *)
Theorem best_exists_with_latest (epochs : nat) :
  exists tr v,
    Overfit.main loss chamfer decoded epochs = Some (tr, v) /\
    ((epochs < 5000)%nat ->
     forall e, In e (all_events tr) -> Overfit.is_checkpoint e = false) /\
    ((5000 <= epochs)%nat ->
     In (Overfit.Save "latest.pth") (all_events tr) /\
     In (Overfit.Save "best.pth") (all_events tr)).
Proof.
  unfold Overfit.main.
  destruct (iterations_total loss chamfer decoded epochs)
    as (tr & v & Hrun & Hlen).
  exists tr, v. split; [exact Hrun|]. split.
  - intros Hsmall e He. unfold all_events in He.
    apply in_concat in He as (evs & Hevs & He).
    apply list_elem_of_In, list_elem_of_lookup_1 in Hevs as [i Hi].
    pose proof (lookup_lt_Some _ _ _ Hi) as Hlt. rewrite Hlen in Hlt.
    destruct (iterations_lookup loss chamfer decoded epochs i tr v Hrun Hlt)
      as (tri & vi & evs' & v' & _ & Hbody & Hlook).
    rewrite Hi in Hlook. injection Hlook as <-.
    destruct (body_cases loss chamfer decoded i vi)
      as [(_ & C & Hb)|[(_ & C & Hb)|[(_ & C & _ & Hb)|(_ & C & _ & Hb)]]];
      rewrite Hb in Hbody; injection Hbody as <- _;
      try (apply checkpoint_due_small in C; lia);
      simpl in He;
      repeat match goal with
        | H : _ \/ _ |- _ => destruct H
        | H : False |- _ => destruct H
        | H : _ = e |- _ => rewrite <- H
        end; reflexivity.
  - intros Hbig.
    apply (first_checkpoint_saves_best 4999 epochs tr v Hrun).
    + lia.
    + vm_compute; reflexivity.
    + intros j Hj. destruct (Overfit.checkpoint_due j) eqn:Hc; [|reflexivity].
      apply checkpoint_due_small in Hc. lia.
Qed.

End MoreLoopProperties.
